(** * daily-tools-lib: the record-access facade and its WHERE-clause builder

    A shallow embedding of [src/database/database-service-single-instance.ts]
    (class [DatabaseService]) and the properties of its recursive condition
    compiler [buildWhereClause] and of the callers [findAllCustom],
    [findAllWithPagination] and [bulkUpdate].

    Conventions of the embedding.
    - A JavaScript string is a [string]; template literals are written with
      [+:+]; [Array.prototype.join] is [String.concat].
    - [paramIndex] is a JavaScript number that only ever holds a positive
      integer; it is a [nat], rendered in decimal by [numberToString].
    - The array [values] is mutated in place with [push]; it is threaded
      through every function as an explicit state, the new contents being
      returned next to the result.  The module [Store] gives the same
      function on a store of objects, where the array and the tree are
      reached through references.
    - An object used as a dictionary ([Record<string, QueryParams>]) is an
      association list in the enumeration order of [Object.keys].
    - The pool and the server are a parameter: a function from the
      statements issued so far and the current one to an answer or an
      error. *)

From Stdlib Require Import ZArith Ascii String DecimalString DecimalNat DecimalZ.
From stdpp Require Import base list strings gmap.

(* stdpp freezes [String.append] under [simpl]; the proofs below compute
   with it. *)
#[local] Arguments String.append !s1 s2 : simpl nomatch.

(** ** JavaScript primitives used by the service *)

Module Js.

(** [`${n}`] for a non-negative integer [n]. *)
Definition numberToString (n : nat) : string :=
  NilZero.string_of_uint (Nat.to_uint n).

(** The safe integers: the integers [z] with [|z| <= 2^53 - 1], which a
    double holds exactly and on which the sums and products of the code are
    exact as long as the result is safe too. *)
Definition isSafeInteger (z : Z) : bool :=
  (- 9007199254740991 <=? z)%Z && (z <=? 9007199254740991)%Z.

(** [`${z}`] for a safe integer [z]: its decimal digits.  Beyond the safe
    integers the code holds a rounded double, and from 1e21 on it prints an
    exponent form; the embedding uses this function on safe integers
    only. *)
Definition intToString (z : Z) : string :=
  NilZero.string_of_int (Z.to_int z).

(** [parts.join(sep)] *)
Definition join (sep : string) (parts : list string) : string :=
  String.concat sep parts.

(** How a call ends: with a value, or with a thrown [Error]. *)
Inductive completion (A : Type) : Type :=
| Returns (a : A)
| Throws (message : string).
Global Arguments Returns {A} a.
Global Arguments Throws {A} message.

Definition threw {A} (c : completion A) : Prop :=
  ∃ message, c = Throws message.

(** The value of a decimal digit character. *)
Definition digitOf (c : ascii) : option nat :=
  let n := nat_of_ascii c in
  if (48 <=? n)%nat && (n <=? 57)%nat then Some (n - 48) else None.

(** A JavaScript number as far as the embedding follows it: [Finite z] is
    the double that is the safe integer [z]; [Untracked] is any other
    number (a fraction, or a value beyond the safe integers, where doubles
    round), of which the embedding says nothing. *)
Inductive JsNumber : Type :=
| Finite (z : Z)
| NaN
| Infinity (negative : bool)
| Untracked.

Definition safeNumber (z : Z) : JsNumber :=
  if isSafeInteger z then Finite z else Untracked.

Definition isWhiteSpace (c : ascii) : bool :=
  let n := nat_of_ascii c in
  (n =? 32)%nat || ((9 <=? n)%nat && (n <=? 13)%nat).

Fixpoint skipWhiteSpace (s : string) : string :=
  match s with
  | String c rest => if isWhiteSpace c then skipWhiteSpace rest else s
  | EmptyString => s
  end.

(** The longest prefix of decimal digits, as a number; [None] when the
    string does not start with a digit. *)
Fixpoint leadingDigits (s : string) (acc : option Z) : option Z :=
  match s with
  | String c rest =>
      match digitOf c with
      | Some d => leadingDigits rest (Some (10 * default 0 acc + Z.of_nat d))
      | None => acc
      end
  | EmptyString => acc
  end%Z.

(** [parseInt(x, 10)], [x] being a string or [undefined]. *)
Definition parseInt (x : option string) : JsNumber :=
  match x with
  | None => NaN
  | Some s =>
      let '(negative, digits) :=
        match skipWhiteSpace s with
        | String "-" rest => (true, rest)
        | String "+" rest => (false, rest)
        | other => (false, other)
        end in
      match leadingDigits digits None with
      | Some n => safeNumber (if negative then - n else n)
      | None => NaN
      end
  end%Z.

(** [Math.ceil(a / b)], [b] being an integer.  For safe integers [a] and
    [b] the quotient of the two doubles is off the exact quotient by less
    than [1 / |b|], so it lies on the same side of every integer and the
    ceiling is the exact one; outside the safe integers the result is not
    followed. *)
Definition ceilOfQuotient (a : JsNumber) (b : Z) : JsNumber :=
  match a with
  | Finite n =>
      if negb (isSafeInteger n && isSafeInteger b) then Untracked
      else if (b =? 0)%Z then
        if (n =? 0)%Z then NaN else Infinity (n <? 0)%Z
      else Finite (- ((- n) / b))%Z
  | NaN => NaN
  | Infinity negative => Infinity (if (b <? 0)%Z then negb negative else negative)
  | Untracked => Untracked
  end.

End Js.
Import Js.

(** ** Data model (lines 3-28 of the source) *)

(** [type QueryParams = string | number | boolean | Date | null].  Numbers are
    restricted to integers and a [Date] is its epoch milliseconds. *)
Inductive QueryParams : Type :=
| QString (s : string)
| QNumber (n : Z)
| QBoolean (b : bool)
| QDate (ms : Z)
| QNull.

(** [QueryParams | QueryParams[]]: what a condition carries as [value], and
    what an element of the array [values] can be at run time (the casts
    [as QueryParams] do not change the value that is pushed). *)
Inductive ConditionValue : Type :=
| Scalar (v : QueryParams)
| Sequence (vs : list QueryParams).

Inductive WhereOperator : Type :=
| OpEq | OpNe | OpGt | OpLt | OpGe | OpLe | OpLike | OpIn | OpIsNull | OpIsNotNull.

Definition operatorText (op : WhereOperator) : string :=
  match op with
  | OpEq => "=" | OpNe => "!=" | OpGt => ">" | OpLt => "<"
  | OpGe => ">=" | OpLe => "<=" | OpLike => "LIKE" | OpIn => "IN"
  | OpIsNull => "IS NULL" | OpIsNotNull => "IS NOT NULL"
  end.

Record WhereCondition : Type := mkCondition {
  field : string;
  operator : WhereOperator;
  value : ConditionValue
}.

Inductive Logic : Type := AND | OR.

Definition logicText (l : Logic) : string :=
  match l with AND => "AND" | OR => "OR" end.

(** [interface WhereOptions]: a flat list of conditions. *)
Record WhereOptions : Type := mkWhereOptions {
  wo_conditions : list WhereCondition;
  wo_logic : Logic
}.

(** [interface ConditionGroup]: [conditions: (WhereCondition | ConditionGroup)[]].
    The test ['field' in item] of the source is the case analysis on
    [GroupItem]. *)
Inductive ConditionGroup : Type :=
| Group (conditions : list GroupItem) (logic : Logic)
with GroupItem : Type :=
| ItemCondition (c : WhereCondition)
| ItemGroup (g : ConditionGroup).

Definition conditionsOf (g : ConditionGroup) : list GroupItem :=
  match g with Group cs _ => cs end.

(** A [WhereOptions] object passed where a [ConditionGroup] is expected
    (as [findAllWithPagination] does) is the same object. *)
Definition asGroup (w : WhereOptions) : ConditionGroup :=
  Group (map ItemCondition (wo_conditions w)) (wo_logic w).

(** ** [buildWhereClause] (lines 201-232) *)

(** Lines 215-218: [condition.value.map(() => { values.push(condition.value);
    return `$${paramIndex++}` })].  The callback ignores the element and
    pushes [condition.value], the whole array. *)
Fixpoint inPlaceholders (whole : ConditionValue) (elems : list QueryParams)
    (values : list ConditionValue) (paramIndex : nat)
  : list string * list ConditionValue * nat :=
  match elems with
  | [] => ([], values, paramIndex)
  | _ :: rest =>
      let '(ps, values', paramIndex') :=
        inPlaceholders whole rest (values ++ [whole]) (S paramIndex) in
      (("$" +:+ numberToString paramIndex) :: ps, values', paramIndex')
  end.

(** Lines 211-223: the branch of the loop body for a simple condition.
    Returns the clause pushed, the new contents of [values] and the new
    value of the local [paramIndex]. *)
Definition conditionClause (condition : WhereCondition)
    (values : list ConditionValue) (paramIndex : nat)
  : string * list ConditionValue * nat :=
  match operator condition, value condition with
  | OpIsNull, _ | OpIsNotNull, _ =>
      (field condition +:+ " " +:+ operatorText (operator condition),
       values, paramIndex)
  | OpIn, Sequence elems =>
      let '(ps, values', paramIndex') :=
        inPlaceholders (value condition) elems values paramIndex in
      (field condition +:+ " IN (" +:+ join ", " ps +:+ ")", values', paramIndex')
  | _, _ =>
      (field condition +:+ " " +:+ operatorText (operator condition)
         +:+ " $" +:+ numberToString paramIndex,
       values ++ [value condition], S paramIndex)
  end.

(** The [for ... of] loop of lines 208-229 is the inner [loop], with the three
    pieces of state it updates: the local array [clauses], the shared array
    [values] and the local number [paramIndex].  The recursive call of line
    227 receives [paramIndex] by value, so the caller's [paramIndex] is the
    same after the call as before; [values] is the same array object. *)
Fixpoint buildWhereClause (group : ConditionGroup)
    (values : list ConditionValue) (paramIndex : nat)
  : string * list ConditionValue :=
  match group with
  | Group conditions logic =>
      let fix loop (items : list GroupItem) (clauses : list string)
                   (values : list ConditionValue) (paramIndex : nat)
        : list string * list ConditionValue :=
        match items with
        | [] => (clauses, values)
        | ItemCondition condition :: rest =>
            let '(clause, values', paramIndex') :=
              conditionClause condition values paramIndex in
            loop rest (clauses ++ [clause]) values' paramIndex'
        | ItemGroup nestedGroup :: rest =>
            let '(text, values') :=
              buildWhereClause nestedGroup values paramIndex in
            loop rest (clauses ++ ["(" +:+ text +:+ ")"]) values' paramIndex
        end in
      let '(clauses, values') := loop conditions [] values paramIndex in
      (join (" " +:+ logicText logic +:+ " ") clauses, values')
  end.

(** The loop of [buildWhereClause] as a function of its own, for stating
    lemmas about it. *)
Fixpoint buildItems (items : list GroupItem) (clauses : list string)
    (values : list ConditionValue) (paramIndex : nat)
  : list string * list ConditionValue :=
  match items with
  | [] => (clauses, values)
  | ItemCondition condition :: rest =>
      let '(clause, values', paramIndex') :=
        conditionClause condition values paramIndex in
      buildItems rest (clauses ++ [clause]) values' paramIndex'
  | ItemGroup nestedGroup :: rest =>
      let '(text, values') :=
        buildWhereClause nestedGroup values paramIndex in
      buildItems rest (clauses ++ ["(" +:+ text +:+ ")"]) values' paramIndex
  end.

(** ** The flat builders of [findAllWithPagination], [bulkUpdate], [bulkDelete] *)

(** Lines 330-333 (and 260-263, 361-364): [condition.value.map((val) => {
    values.push(val); return `$${paramIndex++}` })]. *)
Fixpoint flatInPlaceholders (elems : list QueryParams)
    (values : list ConditionValue) (paramIndex : nat)
  : list string * list ConditionValue * nat :=
  match elems with
  | [] => ([], values, paramIndex)
  | val :: rest =>
      let '(ps, values', paramIndex') :=
        flatInPlaceholders rest (values ++ [Scalar val]) (S paramIndex) in
      (("$" +:+ numberToString paramIndex) :: ps, values', paramIndex')
  end.

(** Lines 327-338: the callback of [whereOptions.conditions.map]. *)
Definition flatConditionClause (condition : WhereCondition)
    (values : list ConditionValue) (paramIndex : nat)
  : string * list ConditionValue * nat :=
  match operator condition, value condition with
  | OpIsNull, _ | OpIsNotNull, _ =>
      (field condition +:+ " " +:+ operatorText (operator condition),
       values, paramIndex)
  | OpIn, Sequence elems =>
      let '(ps, values', paramIndex') :=
        flatInPlaceholders elems values paramIndex in
      (field condition +:+ " IN (" +:+ join ", " ps +:+ ")", values', paramIndex')
  | _, _ =>
      (field condition +:+ " " +:+ operatorText (operator condition)
         +:+ " $" +:+ numberToString paramIndex,
       values ++ [value condition], S paramIndex)
  end.

(** [whereOptions.conditions.map(condition => ...)]; [values] and
    [paramIndex] are variables of the enclosing method captured by the
    callback, so every update is seen by the next element. *)
Fixpoint flatWhereClauses (conditions : list WhereCondition)
    (values : list ConditionValue) (paramIndex : nat)
  : list string * list ConditionValue * nat :=
  match conditions with
  | [] => ([], values, paramIndex)
  | condition :: rest =>
      let '(clause, values', paramIndex') :=
        flatConditionClause condition values paramIndex in
      let '(clauses, values'', paramIndex'') :=
        flatWhereClauses rest values' paramIndex' in
      (clause :: clauses, values'', paramIndex'')
  end.

(** ** Legacy equality conditions and sorting *)

(** [Record<string, QueryParams>], in the order of [Object.keys]. *)
Definition Conditions : Type := list (string * QueryParams).

Inductive SortOrder : Type := ASC | DESC.

Definition sortOrderText (o : SortOrder) : string :=
  match o with ASC => "ASC" | DESC => "DESC" end.

(** [Record<string, SortOrder>], in the order of [Object.entries]. *)
Definition SortOptions : Type := list (string * SortOrder).

(** Lines 182-185 (and 274-277): [Object.keys(conditions).map((key) => {
    values.push(conditions[key]); return `${key} = $${paramIndex++}` })];
    [conditions[key]] is the value of the entry being visited. *)
Fixpoint legacyWhereClauses (conditions : Conditions)
    (values : list ConditionValue) (paramIndex : nat)
  : list string * list ConditionValue * nat :=
  match conditions with
  | [] => ([], values, paramIndex)
  | (key, v) :: rest =>
      let '(clauses, values', paramIndex') :=
        legacyWhereClauses rest (values ++ [Scalar v]) (S paramIndex) in
      ((key +:+ " = $" +:+ numberToString paramIndex) :: clauses,
       values', paramIndex')
  end.

(** Lines 190-195. *)
Definition orderByClause (sortOptions : option SortOptions) : string :=
  match sortOptions with
  | Some entries =>
      if bool_decide (0 < length entries) then
        " ORDER BY " +:+
        join ", " (map (λ '(field, order), field +:+ " " +:+ sortOrderText order)
                       entries)
      else ""
  | None => ""
  end.

(** ** The database connection *)

(** What [this.query(text, params)] hands to the driver. *)
Record Statement : Type := mkStatement {
  text : string;
  params : list ConditionValue
}.

(** A row of a result: column name to the text the driver returns. *)
Abbreviation Row := (gmap string string).

(** The part of pg's [QueryResult] that the service reads or writes. *)
Record QueryResult : Type := mkQueryResult {
  command : string;
  rowCount : Z;
  rows : list Row
}.

(** The pool and the server behind it are external: the answer to a
    statement is a function of the statements issued before it and of the
    statement itself, and may be a thrown error. *)
Definition Database : Type :=
  list Statement → Statement → completion QueryResult.

(** Computations of the service: they read the database, append to the log
    of statements issued through [this.query], and return or throw. *)
Definition DB (A : Type) : Type :=
  Database → list Statement → completion A * list Statement.

Global Instance DB_ret : MRet DB := λ A a _ log, (Returns a, log).

Global Instance DB_bind : MBind DB := λ A B f m db log,
  match m db log with
  | (Returns a, log') => f a db log'
  | (Throws message, log') => (Throws message, log')
  end.

Definition throw {A} (message : string) : DB A :=
  λ _ log, (Throws message, log).

(** Lines 76-91: [query] submits the statement; a driver error is logged to
    the console and thrown again. *)
Definition query (sql : string) (values : list ConditionValue)
  : DB QueryResult :=
  λ db log,
    let statement := mkStatement sql values in
    (db log statement, log ++ [statement]).

(** [interface PaginationOptions]; both numbers are integers here, and the
    properties below take them among the safe integers. *)
Record PaginationOptions : Type := mkPaginationOptions {
  page : Z;
  limit : Z
}.

(** The [pagination] object of the result of [findAllWithPagination]. *)
Record Pagination : Type := mkPagination {
  pg_page : Z;
  pg_limit : Z;
  totalItems : JsNumber;
  totalPages : JsNumber
}.

Record PaginatedResult : Type := mkPaginatedResult {
  data : QueryResult;
  pagination : Pagination
}.

(** ** [findAllCustom] (lines 167-198) *)

Section Service.

(** [this.tableName] *)
Variable tableName : string.

(** Lines 172-195: the statement text and the parameters passed to
    [this.query]. *)
Definition findAllCustomStatement (conditions : Conditions)
    (sortOptions : option SortOptions) (whereOptions : option ConditionGroup)
  : string * list ConditionValue :=
  let sql := "SELECT * FROM " +:+ tableName in
  let values : list ConditionValue := [] in
  let paramIndex := 1 in
  let legacy :=
    if bool_decide (0 < length conditions) then
      let '(whereClauses, values', _) :=
        legacyWhereClauses conditions values paramIndex in
      (sql +:+ " WHERE " +:+ join " AND " whereClauses, values')
    else (sql, values) in
  let '(sql, values) :=
    match whereOptions with
    | Some group =>
        if bool_decide (0 < length (conditionsOf group)) then
          let '(clause, values') := buildWhereClause group values paramIndex in
          (sql +:+ " WHERE " +:+ clause, values')
        else legacy
    | None => legacy
    end in
  (sql +:+ orderByClause sortOptions, values).

Definition findAllCustom (conditions : Conditions)
    (sortOptions : option SortOptions) (whereOptions : option ConditionGroup)
  : DB QueryResult :=
  let '(sql, values) :=
    findAllCustomStatement conditions sortOptions whereOptions in
  query sql values.

(** ** [findAllWithPagination] (lines 235-301) *)

(** Lines 250-279: the COUNT statement. *)
Definition countStatement (conditions : Conditions)
    (whereOptions : option WhereOptions) : string * list ConditionValue :=
  let countSql := "SELECT COUNT(*) FROM " +:+ tableName in
  let values : list ConditionValue := [] in
  let paramIndex := 1 in
  let legacy :=
    if bool_decide (0 < length conditions) then
      let '(whereClauses, values', _) :=
        legacyWhereClauses conditions values paramIndex in
      (countSql +:+ " WHERE " +:+ join " AND " whereClauses, values')
    else (countSql, values) in
  match whereOptions with
  | Some w =>
      if bool_decide (0 < length (wo_conditions w)) then
        let '(whereClauses, values', _) :=
          flatWhereClauses (wo_conditions w) values paramIndex in
        (countSql +:+ " WHERE " +:+
           join (" " +:+ logicText (wo_logic w) +:+ " ") whereClauses,
         values')
      else legacy
  | None => legacy
  end.

Definition findAllWithPagination (paginationOptions : PaginationOptions)
    (conditions : Conditions) (sortOptions : option SortOptions)
    (whereOptions : option WhereOptions) : DB PaginatedResult :=
  let '(countSql, values) := countStatement conditions whereOptions in
  countResult ← query countSql values;
  (* countResult.rows[0].count: reading [count] of [undefined] throws *)
  row ← match rows countResult with
        | row :: _ => mret row
        | [] => throw "TypeError: Cannot read properties of undefined (reading 'count')"
        end;
  let totalItems := parseInt (row !! "count") in
  let totalPages := ceilOfQuotient totalItems (limit paginationOptions) in
  let offset := ((page paginationOptions - 1) * limit paginationOptions)%Z in
  dataSql ← findAllCustom conditions sortOptions (asGroup <$> whereOptions);
  let dataSql :=
    mkQueryResult
      (command dataSql +:+ " LIMIT " +:+ intToString (limit paginationOptions)
         +:+ " OFFSET " +:+ intToString offset)
      (rowCount dataSql) (rows dataSql) in
  mret {| data := dataSql;
          pagination := {| pg_page := page paginationOptions;
                           pg_limit := limit paginationOptions;
                           totalItems := totalItems;
                           totalPages := totalPages |} |}.

(** ** [bulkUpdate] (lines 313-343) *)

Definition bulkUpdate (whereOptions : WhereOptions) (data : Conditions)
  : DB QueryResult :=
  if bool_decide (length data = 0) then
    throw "No data provided for bulk update operation"
  else
    let setClauses :=
      imap (λ index key, key +:+ " = $" +:+ numberToString (index + 1))
           (map fst data) in
    let values := map (λ entry, Scalar (snd entry)) data in
    let paramIndex := length values + 1 in
    let '(whereClauses, values, _) :=
      flatWhereClauses (wo_conditions whereOptions) values paramIndex in
    let sql :=
      "UPDATE " +:+ tableName +:+ " SET " +:+ join ", " setClauses
        +:+ " WHERE "
        +:+ join (" " +:+ logicText (wo_logic whereOptions) +:+ " ") whereClauses
        +:+ " RETURNING *" in
    query sql values.

(** The two statements of a call of [findAllWithPagination]: the COUNT, and
    the SELECT that [findAllCustom] builds from the same arguments. *)
Definition countQuery (conditions : Conditions)
    (whereOptions : option WhereOptions) : Statement :=
  let '(sql, values) := countStatement conditions whereOptions in
  mkStatement sql values.

Definition dataQuery (conditions : Conditions)
    (sortOptions : option SortOptions) (whereOptions : option WhereOptions)
  : Statement :=
  let '(sql, values) :=
    findAllCustomStatement conditions sortOptions (asGroup <$> whereOptions) in
  mkStatement sql values.

End Service.

(** ** Reading the placeholders back from a clause text *)

(** A positional placeholder is a dollar sign followed by a decimal number.
    [scan] walks a text from left to right and lists the numbers of the
    placeholders it meets. *)
Inductive ScanState : Type :=
| Idle             (* not inside a placeholder *)
| Dollar           (* just after a dollar sign *)
| Num (n : nat).   (* inside the digits of a placeholder, [n] read so far *)

Definition flush (st : ScanState) : list nat :=
  match st with Num n => [n] | _ => [] end.

Fixpoint scan (st : ScanState) (s : string) : list nat :=
  match s with
  | EmptyString => flush st
  | String c rest =>
      match digitOf c with
      | Some d =>
          match st with
          | Idle => scan Idle rest
          | Dollar => scan (Num d) rest
          | Num n => scan (Num (10 * n + d)) rest
          end
      | None =>
          flush st ++ scan (if Ascii.eqb c "$" then Dollar else Idle) rest
      end
  end.

Definition placeholderIndices (clause : string) : list nat := scan Idle clause.

Definition placeholderCount (clause : string) : nat :=
  length (placeholderIndices clause).

(** A text without dollar sign: it holds no placeholder. *)
Fixpoint plain (s : string) : bool :=
  match s with
  | EmptyString => true
  | String c rest => negb (Ascii.eqb c "$") && plain rest
  end.

(** A text that ends any number before it: empty, or not starting with a
    digit. *)
Definition boundary (s : string) : bool :=
  match s with
  | EmptyString => true
  | String c _ => match digitOf c with Some _ => false | None => true end
  end.

(** [emits t L]: wherever [t] stands before a boundary, reading it yields
    exactly the placeholders [L]. *)
Definition emits (t : string) (L : list nat) : Prop :=
  ∀ r, boundary r = true → scan Idle (t +:+ r) = L ++ scan Idle r.

(** The condition fields of a tree are free of dollar signs. *)
Definition plainCondition (c : WhereCondition) : bool := plain (field c).

Fixpoint plainFields (g : ConditionGroup) : bool :=
  match g with
  | Group conditions _ =>
      forallb (λ item, match item with
                       | ItemCondition c => plainCondition c
                       | ItemGroup g' => plainFields g'
                       end) conditions
  end.

(** ** What a tree appends to [values] *)

Definition conditionParams (c : WhereCondition) : list ConditionValue :=
  match operator c, value c with
  | OpIsNull, _ | OpIsNotNull, _ => []
  | OpIn, Sequence elems => replicate (length elems) (value c)
  | _, _ => [value c]
  end.

Fixpoint groupParams (g : ConditionGroup) : list ConditionValue :=
  match g with
  | Group conditions _ =>
      concat (map (λ item, match item with
                           | ItemCondition c => conditionParams c
                           | ItemGroup g' => groupParams g'
                           end) conditions)
  end.

(** ** Induction on condition trees *)

Definition nestedGroups (P : ConditionGroup → Prop) (item : GroupItem) : Prop :=
  match item with
  | ItemCondition _ => True
  | ItemGroup g => P g
  end.

Fixpoint ConditionGroup_tree_ind (P : ConditionGroup → Prop)
    (step : ∀ conditions logic,
        Forall (nestedGroups P) conditions → P (Group conditions logic))
    (g : ConditionGroup) : P g :=
  match g with
  | Group conditions logic =>
      step conditions logic
        ((fix each (items : list GroupItem) : Forall (nestedGroups P) items :=
            match items with
            | [] => List.Forall_nil _
            | item :: rest =>
                List.Forall_cons _ item rest
                  (match item return nestedGroups P item with
                   | ItemCondition _ => I
                   | ItemGroup g' => ConditionGroup_tree_ind P step g'
                   end)
                  (each rest)
            end) conditions)
  end.

(** ** The placeholders a tree emits, as the code numbers them *)

(** A simple condition takes as many consecutive indices as it appends
    parameters. *)
Definition conditionIndices (c : WhereCondition) (paramIndex : nat) : list nat :=
  seq paramIndex (length (conditionParams c)).

(** The numbering of [buildWhereClause]: a simple condition advances the
    index of its group; a nested group starts at the current index of its
    parent and leaves it where it was. *)
Fixpoint groupIndices (g : ConditionGroup) (paramIndex : nat) : list nat :=
  match g with
  | Group conditions _ =>
      (fix each (items : list GroupItem) (paramIndex : nat) : list nat :=
         match items with
         | [] => []
         | ItemCondition c :: rest =>
             conditionIndices c paramIndex
               ++ each rest (paramIndex + length (conditionParams c))
         | ItemGroup g' :: rest =>
             groupIndices g' paramIndex ++ each rest paramIndex
         end) conditions paramIndex
  end.

Fixpoint itemsIndices (items : list GroupItem) (paramIndex : nat) : list nat :=
  match items with
  | [] => []
  | ItemCondition c :: rest =>
      conditionIndices c paramIndex
        ++ itemsIndices rest (paramIndex + length (conditionParams c))
  | ItemGroup g' :: rest =>
      groupIndices g' paramIndex ++ itemsIndices rest paramIndex
  end.

Definition itemParams (item : GroupItem) : list ConditionValue :=
  match item with
  | ItemCondition c => conditionParams c
  | ItemGroup g => groupParams g
  end.

Definition plainItem (item : GroupItem) : bool :=
  match item with
  | ItemCondition c => plainCondition c
  | ItemGroup g => plainFields g
  end.

(** The text of the placeholder number [i]. *)
Definition placeholderText (i : nat) : string := "$" +:+ numberToString i.

(** What the specification asks of the numbering: read from left to right,
    the placeholders of the clause are [start], [start + 1], ... , one for
    each parameter appended by the call. *)
Definition numberedInOrder (group : ConditionGroup)
    (values : list ConditionValue) (start : nat) : Prop :=
  let '(clause, values') := buildWhereClause group values start in
  placeholderIndices clause = seq start (length values' - length values).

(** ** The objects of a call in a store

  [buildWhereClause] receives references: to the group, to the array
  [values], and through the group to the condition objects and to the
  arrays they hold.  The store makes the sharing explicit: which object
  each [push] changes, and which objects a call leaves alone. *)

Module Store.

Abbreviation loc := positive.

(** What a property or an array slot holds. *)
Inductive jsval : Type :=
| Prim (q : QueryParams)
| Ref (l : loc).

Inductive object : Type :=
| ArrayObj (elems : list jsval)
| ConditionObj (field : string) (operator : WhereOperator) (value : jsval)
| GroupObj (conditions : loc) (logic : Logic).

Abbreviation heap := (gmap loc object).

(** [values.push(x)]; calling [push] on what is not an array throws. *)
Definition push (h : heap) (values : loc) (x : jsval) : option heap :=
  match h !! values with
  | Some (ArrayObj elems) => Some (<[values := ArrayObj (elems ++ [x])]> h)
  | _ => None
  end.

(** [Array.isArray(v)], with the elements when it holds. *)
Definition asArray (h : heap) (v : jsval) : option (list jsval) :=
  match v with
  | Ref a => match h !! a with Some (ArrayObj elems) => Some elems | _ => None end
  | Prim _ => None
  end.

(** Lines 215-218: [map] calls its callback once for each index below the
    length the array had when [map] was called. *)
Fixpoint inPlaceholders (count : nat) (whole : jsval) (h : heap)
    (values : loc) (paramIndex : nat) : option (list string * heap * nat) :=
  match count with
  | 0 => Some ([], h, paramIndex)
  | S count' =>
      h' ← push h values whole;
      '(ps, h'', paramIndex') ← inPlaceholders count' whole h' values (S paramIndex);
      Some (("$" +:+ numberToString paramIndex) :: ps, h'', paramIndex')
  end.

(** Lines 211-223. *)
Definition conditionClause (h : heap) (field : string)
    (operator : WhereOperator) (value : jsval) (values : loc)
    (paramIndex : nat) : option (string * heap * nat) :=
  match operator, asArray h value with
  | OpIsNull, _ | OpIsNotNull, _ =>
      Some (field +:+ " " +:+ operatorText operator, h, paramIndex)
  | OpIn, Some elems =>
      '(ps, h', paramIndex') ←
        inPlaceholders (length elems) value h values paramIndex;
      Some (field +:+ " IN (" +:+ join ", " ps +:+ ")", h', paramIndex')
  | _, _ =>
      h' ← push h values value;
      Some (field +:+ " " +:+ operatorText operator
              +:+ " $" +:+ numberToString paramIndex,
            h', S paramIndex)
  end.

(** Lines 201-232 on the store.  [forOf] is the loop over
    [group.conditions]: the array iterator reads the array again at every
    step.  [fuel] bounds the number of calls and loop steps; [None] is a
    thrown [TypeError] or exhausted fuel. *)
Fixpoint buildWhereClause (fuel : nat) (h : heap) (group values : loc)
    (paramIndex : nat) {struct fuel} : option (string * heap) :=
  match fuel with
  | 0 => None
  | S fuel' =>
      match h !! group with
      | Some (GroupObj conditions logic) =>
          '(clauses, h') ← forOf fuel' h conditions 0 [] values paramIndex;
          Some (join (" " +:+ logicText logic +:+ " ") clauses, h')
      | _ => None
      end
  end
with forOf (fuel : nat) (h : heap) (conditions : loc) (i : nat)
    (clauses : list string) (values : loc) (paramIndex : nat)
    {struct fuel} : option (list string * heap) :=
  match fuel with
  | 0 => None
  | S fuel' =>
      match h !! conditions with
      | Some (ArrayObj items) =>
          match items !! i with
          | None => Some (clauses, h)
          | Some (Ref item) =>
              match h !! item with
              | Some (ConditionObj field operator value) =>
                  '(clause, h', paramIndex') ←
                    conditionClause h field operator value values paramIndex;
                  forOf fuel' h' conditions (S i) (clauses ++ [clause])
                        values paramIndex'
              | Some (GroupObj _ _) =>
                  '(text, h') ←
                    buildWhereClause fuel' h item values paramIndex;
                  forOf fuel' h' conditions (S i)
                        (clauses ++ ["(" +:+ text +:+ ")"]) values paramIndex
              | _ => None
              end
          | Some (Prim _) => None
          end
      | _ => None
      end
  end.

(** *** A condition tree laid out in a store *)

Inductive reprValue (t : heap) : jsval → ConditionValue → Prop :=
| repr_scalar q : reprValue t (Prim q) (Scalar q)
| repr_sequence a qs :
    t !! a = Some (ArrayObj (Prim <$> qs)) →
    reprValue t (Ref a) (Sequence qs).

Inductive reprGroup (t : heap) : loc → ConditionGroup → Prop :=
| repr_group l conditions itemLocs items logic :
    t !! l = Some (GroupObj conditions logic) →
    t !! conditions = Some (ArrayObj (Ref <$> itemLocs)) →
    Forall2 (reprItem t) itemLocs items →
    reprGroup t l (Group items logic)
with reprItem (t : heap) : loc → GroupItem → Prop :=
| repr_condition l field operator v cv :
    t !! l = Some (ConditionObj field operator v) →
    reprValue t v cv →
    reprItem t l (ItemCondition (mkCondition field operator cv))
| repr_nested l g :
    reprGroup t l g → reprItem t l (ItemGroup g).

(** The store made of the objects [t] of a tree and of the array [values]
    holding [elems]. *)
Definition withValues (t : heap) (values : loc) (elems : list jsval) : heap :=
  <[values := ArrayObj elems]> t.

End Store.

(** What the induction on the tree proves of a group [g] laid out at [l] in
    [t]: with enough fuel the call on the store returns the text that
    [buildWhereClause] gives on values, and changes nothing but the contents
    of [values], which grow by what stands for the parameters of the
    group. *)
Definition runsLike (t : Store.heap) (values : Store.loc)
    (g : ConditionGroup) : Prop :=
  ∀ l, Store.reprGroup t l g →
  ∀ elems paramIndex (pureValues : list ConditionValue),
    ∃ enough added,
      (∀ fuel, enough ≤ fuel →
         Store.buildWhereClause fuel (Store.withValues t values elems) l
           values paramIndex
         = Some ((buildWhereClause g pureValues paramIndex).1,
                 Store.withValues t values (elems ++ added)))
      ∧ Forall2 (Store.reprValue t) added (groupParams g).

(** ** Sample inputs *)

Module Samples.

Definition status_active : WhereCondition :=
  mkCondition "status" OpEq (Scalar (QString "active")).
Definition age_adult : WhereCondition :=
  mkCondition "age" OpGe (Scalar (QNumber 18)).
Definition department_it : WhereCondition :=
  mkCondition "department" OpEq (Scalar (QString "IT")).
Definition experience_5 : WhereCondition :=
  mkCondition "experience" OpGe (Scalar (QNumber 5)).

(** The complex query of the usage notes of the source:
    (status = 'active' AND age >= 18) OR (department = 'IT' AND experience >= 5) *)
Definition twoLevel : ConditionGroup :=
  Group [ItemGroup (Group [ItemCondition status_active;
                           ItemCondition age_adult] AND);
         ItemGroup (Group [ItemCondition department_it;
                           ItemCondition experience_5] AND)] OR.

(** A nested group followed by a simple condition. *)
Definition nestedThenLeaf : ConditionGroup :=
  Group [ItemGroup (Group [ItemCondition status_active] AND);
         ItemCondition age_adult] AND.

Definition role_in : WhereCondition :=
  mkCondition "role" OpIn (Sequence [QString "admin"; QString "manager"]).

Definition roleIn : ConditionGroup := Group [ItemCondition role_in] AND.

Definition role_in_scalar : WhereCondition :=
  mkCondition "role" OpIn (Scalar (QString "admin")).

Definition roleInScalar : ConditionGroup :=
  Group [ItemCondition role_in_scalar] AND.

Definition deletedAtIsNull : ConditionGroup :=
  Group [ItemCondition (mkCondition "deleted_at" OpIsNull (Scalar QNull))] AND.

(** A condition whose field name reads like a placeholder. *)
Definition dollarField : ConditionGroup :=
  Group [ItemCondition (mkCondition "$5" OpEq (Scalar (QNumber 1)))] AND.

(** A group whose only child is a group without condition. *)
Definition nestedEmpty : ConditionGroup :=
  Group [ItemGroup (Group [] AND)] AND.

(** A server that holds 42 rows and answers every statement alike. *)
Definition sampleDb : Database :=
  λ _ _, Returns (mkQueryResult "SELECT" 1 [ {[ "count" := "42" ]} ]).

(** The tree [roleIn] laid out at 1, and at 5 an array [values] that
    already holds one element. *)
Definition sampleHeap : Store.heap :=
  {[ 1%positive := Store.GroupObj 2 AND;
     2%positive := Store.ArrayObj [Store.Ref 3];
     3%positive := Store.ConditionObj "role" OpIn (Store.Ref 4);
     4%positive := Store.ArrayObj [Store.Prim (QString "admin");
                                   Store.Prim (QString "manager")];
     5%positive := Store.ArrayObj [Store.Prim (QNumber 7)] ]}.

End Samples.


(** ** The other methods of the facade *)

Module Facade.
Section Methods.

(** [this.tableName] *)
Variable tableName : string.

(** Lines 94-101 (and 576-583): [create]. *)
Definition createStatement (data : Conditions) : Statement :=
  let columns := join ", " (map fst data) in
  let values := map (λ entry, Scalar (snd entry)) data in
  let placeholders :=
    join ", " (imap (λ index _, "$" +:+ numberToString (index + 1)) values) in
  mkStatement
    ("INSERT INTO " +:+ tableName +:+ " (" +:+ columns +:+ ") VALUES ("
       +:+ placeholders +:+ ") RETURNING *")
    values.

Definition create (data : Conditions) : DB QueryResult :=
  query (text (createStatement data)) (params (createStatement data)).

(** Lines 145-148 (and 586-589): [findById]; [id] is a number or a string. *)
Definition findById (id : QueryParams) : DB QueryResult :=
  query ("SELECT * FROM " +:+ tableName +:+ " WHERE id = $1") [Scalar id].

(** Lines 156-159 (and 597-600): [Object.keys(conditions).map((key, index) =>
    { values.push(conditions[key]); return `${key} = $${index + 1}` })]. *)
Fixpoint findAllClauses (conditions : Conditions) (index : nat)
    (values : list ConditionValue) : list string * list ConditionValue :=
  match conditions with
  | [] => ([], values)
  | (key, v) :: rest =>
      let '(clauses, values') :=
        findAllClauses rest (S index) (values ++ [Scalar v]) in
      ((key +:+ " = $" +:+ numberToString (index + 1)) :: clauses, values')
  end.

(** Lines 151-164 (and 592-605): [findAll]. *)
Definition findAllStatement (conditions : Conditions) : Statement :=
  let sql := "SELECT * FROM " +:+ tableName in
  let values : list ConditionValue := [] in
  if bool_decide (0 < length conditions) then
    let '(whereClauses, values') := findAllClauses conditions 0 values in
    mkStatement (sql +:+ " WHERE " +:+ join " AND " whereClauses) values'
  else mkStatement sql values.

Definition findAll (conditions : Conditions) : DB QueryResult :=
  query (text (findAllStatement conditions)) (params (findAllStatement conditions)).

(** Lines 304-310 (and 608-614): [update]. *)
Definition updateStatement (id : QueryParams) (data : Conditions) : Statement :=
  let setClauses :=
    imap (λ index key, key +:+ " = $" +:+ numberToString (index + 1))
         (map fst data) in
  let values := map (λ entry, Scalar (snd entry)) data ++ [Scalar id] in
  mkStatement
    ("UPDATE " +:+ tableName +:+ " SET " +:+ join ", " setClauses
       +:+ " WHERE id = $" +:+ numberToString (length values)
       +:+ " RETURNING *")
    values.

Definition update (id : QueryParams) (data : Conditions) : DB QueryResult :=
  query (text (updateStatement id data)) (params (updateStatement id data)).

(** Lines 346-349 (and 617-620): [delete]. *)
Definition delete (id : QueryParams) : DB QueryResult :=
  query ("DELETE FROM " +:+ tableName +:+ " WHERE id = $1 RETURNING *")
        [Scalar id].

(** Lines 352-374: [bulkDelete]. *)
Definition bulkDeleteStatement (whereOptions : WhereOptions) : Statement :=
  let values : list ConditionValue := [] in
  let paramIndex := 1 in
  let '(whereClauses, values, _) :=
    flatWhereClauses (wo_conditions whereOptions) values paramIndex in
  mkStatement
    ("DELETE FROM " +:+ tableName +:+ " WHERE "
       +:+ join (" " +:+ logicText (wo_logic whereOptions) +:+ " ") whereClauses
       +:+ " RETURNING *")
    values.

Definition bulkDelete (whereOptions : WhereOptions) : DB QueryResult :=
  query (text (bulkDeleteStatement whereOptions))
        (params (bulkDeleteStatement whereOptions)).

(** Lines 377-379: [executeQuery]. *)
Definition executeQuery (sql : string) (values : list ConditionValue)
  : DB QueryResult :=
  query sql values.

End Methods.
End Facade.

(** What a simple condition appends in the flat builders. *)
Definition flatParams (c : WhereCondition) : list ConditionValue :=
  match operator c, value c with
  | OpIsNull, _ | OpIsNotNull, _ => []
  | OpIn, Sequence elems => map Scalar elems
  | _, _ => [value c]
  end.

(** A condition with the operator IN and a sequence as value. *)
Definition inWithSequence (c : WhereCondition) : bool :=
  match operator c, value c with
  | OpIn, Sequence _ => true
  | _, _ => false
  end.

(** A statement whose placeholders, read from left to right, are [$1] to
    [$n], [n] being the number of parameters passed with it. *)
Definition wellNumbered (statement : Statement) : Prop :=
  placeholderIndices (text statement) = seq 1 (length (params statement)).

(** The keys of a dictionary hold no dollar sign. *)
Definition plainKeys {A} (entries : list (string * A)) : bool :=
  forallb (λ entry, plain (fst entry)) entries.

(** A call that submits the statement [statement] and nothing else, and
    ends as the server answers it. *)
Definition submits (call : DB QueryResult) (statement : Statement) : Prop :=
  ∀ (db : Database) (log : list Statement),
    call db log = (db log statement, log ++ [statement]).

(** No condition of the options is IN with a sequence. *)
Definition noSequence (whereOptions : option WhereOptions) : bool :=
  match whereOptions with
  | Some w => forallb (λ c, negb (inWithSequence c)) (wo_conditions w)
  | None => true
  end.

(** ** [bulkCreate] (lines 104-142)

  [bulkCreate] takes a client from the pool and talks to it directly: the
  requests below are those passed to [client.query]. *)

Module Transaction.

(** A parameter of the INSERT: a value, or [undefined] (here [None]) when
    the row has no such key. *)
Abbreviation Cell := (option QueryParams).

Record Request : Type := mkRequest {
  sql : string;
  cells : list Cell
}.

(** The client and the server behind it, as [Database] is for the pool. *)
Definition Client : Type := list Request → Request → completion QueryResult.

(** [data[col]] *)
Fixpoint lookupKey (data : Conditions) (col : string) : Cell :=
  match data with
  | [] => None
  | (key, v) :: rest =>
      if bool_decide (key = col) then Some v else lookupKey rest col
  end.

(** Lines 120-128: [dataArray.forEach((data, rowIndex) => ...)], which
    extends [valueStr] and [allValues]; [count] is [dataArray.length]. *)
Fixpoint insertRows (columns : list string) (count : nat)
    (rows : list Conditions) (rowIndex : nat)
    (valueStr : string) (allValues : list Cell) : string * list Cell :=
  match rows with
  | [] => (valueStr, allValues)
  | data :: rest =>
      let rowValues := map (λ col, lookupKey data col) columns in
      let placeholders :=
        join ", "
          (imap (λ colIndex _,
                   "$" +:+ numberToString
                             (rowIndex * length columns + colIndex + 1))
                rowValues) in
      insertRows columns count rest (S rowIndex)
        (valueStr +:+ "(" +:+ placeholders +:+ ")"
           +:+ (if bool_decide (rowIndex < count - 1) then ", " else ""))
        (allValues ++ rowValues)
  end.

(** Lines 113-130: the INSERT, [first] being [dataArray[0]]. *)
Definition insertRequest (tableName : string) (first : Conditions)
    (dataArray : list Conditions) : Request :=
  let columns := map fst first in
  let columnStr := join ", " columns in
  let '(valueStr, allValues) :=
    insertRows columns (length dataArray) dataArray 0 "" [] in
  mkRequest
    ("INSERT INTO " +:+ tableName +:+ " (" +:+ columnStr +:+ ") VALUES "
       +:+ valueStr +:+ " RETURNING *")
    allValues.

Definition beginRequest : Request := mkRequest "BEGIN" [].
Definition commitRequest : Request := mkRequest "COMMIT" [].
Definition rollbackRequest : Request := mkRequest "ROLLBACK" [].

(** Lines 135-138, the [catch] block: ROLLBACK, then the error thrown
    again; an error of the ROLLBACK itself takes its place. *)
Definition rollback (client : Client) (log : list Request) (error : string)
  : completion QueryResult * list Request :=
  match client log rollbackRequest with
  | Returns _ => (Throws error, log ++ [rollbackRequest])
  | Throws rollbackError => (Throws rollbackError, log ++ [rollbackRequest])
  end.

(** [pool] is the outcome of [this.pool.connect()], which is awaited before
    the [try] block.  The [finally] block releases the client on every path;
    releasing is no request and is not recorded. *)
Definition bulkCreate (tableName : string) (pool : completion Client)
    (dataArray : list Conditions) (log : list Request)
  : completion QueryResult * list Request :=
  match dataArray with
  | [] => (Throws "No data provided for bulk create operation", log)
  | first :: _ =>
      match pool with
      | Throws error => (Throws error, log)
      | Returns client =>
          match client log beginRequest with
          | Throws error => rollback client (log ++ [beginRequest]) error
          | Returns _ =>
              let insert := insertRequest tableName first dataArray in
              match client (log ++ [beginRequest]) insert with
              | Throws error =>
                  rollback client (log ++ [beginRequest; insert]) error
              | Returns result =>
                  match client (log ++ [beginRequest; insert]) commitRequest with
                  | Throws error =>
                      rollback client
                        (log ++ [beginRequest; insert; commitRequest]) error
                  | Returns _ =>
                      (Returns result,
                       log ++ [beginRequest; insert; commitRequest])
                  end
              end
          end
      end
  end.

End Transaction.

(** ** [DatabasePool.getInstance] and the constructor of [DatabaseService]
    (lines 30-73)

  The class keeps one pool in the static field [instance]; [None] is the
  field before the first call.  A pool is represented by the connection
  string it was built from ([None]: undefined). *)

Module PoolSingleton.

Record Pool : Type := mkPool { connectionString : option string }.

Record DatabaseService : Type := mkService {
  tableName : string;
  pool : Pool
}.

Section Environment.

(** [process.env.POSTGRES_CONNECTION_STRING] *)
Variable POSTGRES_CONNECTION_STRING : option string.

(** Line 36: [connectionString || process.env.POSTGRES_CONNECTION_STRING];
    undefined and the empty string are falsy. *)
Definition newPool (connectionString : option string) : Pool :=
  mkPool match connectionString with
         | Some "" | None => POSTGRES_CONNECTION_STRING
         | Some given => Some given
         end.

(** Lines 50-55, on the static field: the pool returned and the field
    afterwards. *)
Definition getInstance (connectionString : option string)
    (instance : option Pool) : Pool * option Pool :=
  match instance with
  | None => let created := newPool connectionString in (created, Some created)
  | Some existing => (existing, Some existing)
  end.

(** Lines 70-73: [new DatabaseService(tableName, connectionString)]. *)
Definition construct (tableName : string) (connectionString : option string)
    (instance : option Pool) : DatabaseService * option Pool :=
  let '(shared, instance') := getInstance connectionString instance in
  (mkService tableName shared, instance').

(** Services constructed one after the other. *)
Fixpoint constructAll (calls : list (string * option string))
    (instance : option Pool) : list DatabaseService * option Pool :=
  match calls with
  | [] => ([], instance)
  | (tableName, connectionString) :: rest =>
      let '(service, instance') :=
        construct tableName connectionString instance in
      let '(services, final) := constructAll rest instance' in
      (service :: services, final)
  end.

End Environment.

End PoolSingleton.

(** ** [FileUploaderService.uploadFile] and [uploadToStorage]
    (lines 852-893 and 1050-1072)

  The storage client is a parameter, as the database is: it receives the
  commands sent before and the command, and answers with the
  [httpStatusCode] of the response ([None]: no such field) or throws.
  SHA-256 is a parameter as well.  Sizes are non-negative integers. *)

Module Uploader.

Record File : Type := mkFile {
  name : string;
  type : string;
  size : nat;
  bytes : string
}.

Record UploadFileParams : Type := mkParams {
  file : File;
  bucketName : string;
  keyPrefix : option string;
  keyName : option string;
  keySuffix : option string
}.

Record PutObjectCommand : Type := mkPut {
  Bucket : string;
  Key : string;
  Body : string;
  ACL : string;
  ContentType : string
}.

Definition S3Client : Type :=
  list PutObjectCommand → PutObjectCommand → completion (option nat).

Record FileUploaderService : Type := mkUploader {
  baseRemoteUrl : string;
  maxFileSize : nat;
  allowedFileTypes : list string;
  fileCache : gmap string string
}.

(** [a || b] on strings: the empty string is falsy. *)
Definition orElse (a b : string) : string :=
  match a with
  | EmptyString => b
  | _ => a
  end.

(** [s.split(sep)] for a separator of one character. *)
Fixpoint split (sep : ascii) (s : string) : list string :=
  match s with
  | EmptyString => [EmptyString]
  | String c rest =>
      if Ascii.eqb c sep then EmptyString :: split sep rest
      else match split sep rest with
           | head :: tail => String c head :: tail
           | [] => [String c EmptyString]
           end
  end.

(** Lines 878-883: the storage key. *)
Definition finalKey (params : UploadFileParams) : string :=
  let keyPrefix := default "" (keyPrefix params) in
  let keyName := default "" (keyName params) in
  let keySuffix := default "" (keySuffix params) in
  let parts := split "." (name (file params)) in
  let fileExt := last parts in
  let finalKeyName := orElse keyName (join "." (removelast parts)) in
  let finalKeySuffix := orElse keySuffix (default "" fileExt) in
  match keyPrefix with
  | EmptyString => finalKeyName +:+ "." +:+ finalKeySuffix
  | _ => keyPrefix +:+ "/" +:+ finalKeyName +:+ "." +:+ finalKeySuffix
  end.

(** Lines 1050-1072. *)
Definition uploadToStorage (service : FileUploaderService)
    (bucketName key data contentType : string)
    (s3Client : S3Client) (log : list PutObjectCommand)
  : completion string * list PutObjectCommand :=
  let command :=
    mkPut bucketName key data "public-read"
          (orElse contentType "application/octet-stream") in
  match s3Client log command with
  | Throws error => (Throws error, log ++ [command])
  | Returns httpStatusCode =>
      (if bool_decide (httpStatusCode = Some 200)
       then Returns (baseRemoteUrl service +:+ "/" +:+ key)
       else Throws "Upload failed",
       log ++ [command])
  end.

Section Hash.

(** [createHash('sha256')] of the bytes, as hexadecimal digits. *)
Variable sha256 : string → string.

(** Lines 825-830. *)
Definition calculateFileHash (file : File) : string := sha256 (bytes file).

(** Lines 852-893: the outcome, the service afterwards and the commands
    sent. *)
Definition uploadFile (service : FileUploaderService)
    (params : UploadFileParams)
    (s3Client : S3Client) (log : list PutObjectCommand)
  : completion string * FileUploaderService * list PutObjectCommand :=
  let file := file params in
  if bool_decide (bucketName params = "") then
    (Throws "bucketName cannot be empty", service, log)
  else if bool_decide (maxFileSize service < size file) then
    (Throws "File size exceeds the limit", service, log)
  else if bool_decide (0 < length (allowedFileTypes service))
          && negb (bool_decide (type file ∈ allowedFileTypes service)) then
    (Throws "Invalid file type", service, log)
  else
    let fileHash := calculateFileHash file in
    match fileCache service !! fileHash with
    | Some cached => (Returns cached, service, log)
    | None =>
        let mimeType := orElse (type file) "application/octet-stream" in
        match uploadToStorage service (bucketName params) (finalKey params)
                (bytes file) mimeType s3Client log with
        | (Returns url, log') =>
            (Returns url,
             mkUploader (baseRemoteUrl service) (maxFileSize service)
               (allowedFileTypes service)
               (<[fileHash := url]> (fileCache service)),
             log')
        | (Throws error, log') => (Throws error, service, log')
        end
    end.

(** The three checks of lines 857-869 pass. *)
Definition accepts (service : FileUploaderService)
    (params : UploadFileParams) : bool :=
  negb (bool_decide (bucketName params = ""))
  && bool_decide (size (file params) ≤ maxFileSize service)
  && (bool_decide (allowedFileTypes service = [])
      || bool_decide (type (file params) ∈ allowedFileTypes service)).

End Hash.

(** The character occurs in the string. *)
Fixpoint contains (c : ascii) (s : string) : bool :=
  match s with
  | EmptyString => false
  | String c' rest => Ascii.eqb c' c || contains c rest
  end.

End Uploader.

(** Sample surroundings of the uploader: a stand-in for the hash, a storage
    that accepts every command and one that refuses every command. *)
Module UploaderSamples.

Definition sampleHash (bytes : string) : string := "sha256:" +:+ bytes.

Definition sampleStorage : Uploader.S3Client := λ _ _, Returns (Some 200).

Definition failingStorage : Uploader.S3Client := λ _ _, Throws "unreachable".

End UploaderSamples.

(** * Properties *)

(** ** The loop of [buildWhereClause] *)

Lemma buildWhereClause_unfold conditions logic values paramIndex :
  buildWhereClause (Group conditions logic) values paramIndex =
  let '(clauses, values') := buildItems conditions [] values paramIndex in
  (join (" " +:+ logicText logic +:+ " ") clauses, values').
Proof.
  cbn [buildWhereClause].
  set (loop := fix loop (items : list GroupItem) (clauses : list string)
                 (values : list ConditionValue) (paramIndex : nat) := _).
  assert (H : ∀ items clauses vs idx,
             loop items clauses vs idx = buildItems items clauses vs idx).
  { induction items as [|[c|g] rest IH]; intros; cbn; [done | |].
    - destruct (conditionClause _ _ _) as [[? ?] ?]. apply IH.
    - destruct (buildWhereClause _ _ _). apply IH. }
  by rewrite H.
Qed.

(** ** Strings *)

Lemma string_app_assoc (a b c : string) : (a +:+ b) +:+ c = a +:+ b +:+ c.
Proof. induction a as [|x a IH]; simpl; [done | by f_equal]. Qed.

Lemma string_app_nil_r (a : string) : a +:+ "" = a.
Proof. induction a as [|x a IH]; simpl; [done | by f_equal]. Qed.

Lemma plain_app (a b : string) : plain (a +:+ b) = plain a && plain b.
Proof.
  induction a as [|x a IH]; cbn; [done |].
  rewrite IH. by destruct (Ascii.eqb x "$").
Qed.

Lemma boundary_app (a r : string) :
  boundary a = true → boundary r = true → boundary (a +:+ r) = true.
Proof. by destruct a. Qed.

Lemma join_cons_cons sep a b rest :
  join sep (a :: b :: rest) = a +:+ sep +:+ join sep (b :: rest).
Proof. done. Qed.

(** ** The scanner on the pieces the builders emit *)

Lemma scan_plain (p x : string) :
  plain p = true → scan Idle (p +:+ x) = scan Idle x.
Proof.
  induction p as [|c p IH]; cbn; [done |].
  intros [Hc Hp]%andb_prop. destruct (digitOf c); [by apply IH |].
  destruct (Ascii.eqb c "$"); [done |]. by apply IH.
Qed.

Lemma scan_boundary (st : ScanState) (r : string) :
  boundary r = true → scan st r = flush st ++ scan Idle r.
Proof.
  destruct r as [|c r]; cbn.
  - by rewrite app_nil_r.
  - destruct (digitOf c); [done |]. done.
Qed.

(** Evaluates [digitOf] at the literal characters of the goal. *)
Ltac eval_digit :=
  repeat match goal with
         | |- context [digitOf (Ascii ?a ?b ?c ?d ?e ?f ?g ?h)] =>
             let v := eval vm_compute in (digitOf (Ascii a b c d e f g h)) in
             change (digitOf (Ascii a b c d e f g h)) with v
         end.

Lemma scan_digits (d : Decimal.uint) (acc : nat) (r : string) :
  scan (Num acc) (NilEmpty.string_of_uint d +:+ r)
  = scan (Num (Nat.of_uint_acc d acc)) r.
Proof.
  revert acc. induction d; intros acc; cbn [NilEmpty.string_of_uint Nat.of_uint_acc];
    [done | ..];
    change (String ?c ?s +:+ r) with (String c (s +:+ r));
    cbn [scan]; eval_digit; cbv iota;
    (rewrite IHd, Nat.tail_mul_spec; do 3 f_equal; lia).
Qed.

Lemma scan_number (n : nat) (r : string) :
  scan Dollar (numberToString n +:+ r) = scan (Num n) r.
Proof.
  unfold numberToString.
  rewrite <- (Unsigned.of_to n) at 2.
  destruct (Nat.to_uint n) as [|d|d|d|d|d|d|d|d|d|d]; [done | ..];
    cbn [NilZero.string_of_uint NilEmpty.string_of_uint];
    change (String ?c ?s +:+ r) with (String c (s +:+ r));
    cbn [scan]; eval_digit; cbv iota; rewrite scan_digits; done.
Qed.

Lemma emits_placeholder (n : nat) : emits ("$" +:+ numberToString n) [n].
Proof.
  intros r Hr. cbn. rewrite scan_number. by rewrite (scan_boundary _ _ Hr).
Qed.

Lemma emits_plain (p : string) : plain p = true → emits p [].
Proof. intros Hp r _. by apply scan_plain. Qed.

Lemma emits_plain_l (p t : string) (L : list nat) :
  plain p = true → emits t L → emits (p +:+ t) L.
Proof.
  intros Hp Ht r Hr. rewrite string_app_assoc, scan_plain by done. by apply Ht.
Qed.

Lemma emits_app (t1 t2 : string) (L1 L2 : list nat) :
  boundary t2 = true → emits t1 L1 → emits t2 L2 → emits (t1 +:+ t2) (L1 ++ L2).
Proof.
  intros Hb H1 H2 r Hr. rewrite string_app_assoc.
  rewrite H1 by by apply boundary_app.
  rewrite H2 by done. by rewrite app_assoc.
Qed.

Lemma emits_indices (t : string) (L : list nat) :
  emits t L → placeholderIndices t = L.
Proof.
  intros H. specialize (H "" eq_refl).
  rewrite string_app_nil_r in H. cbn in H. by rewrite app_nil_r in H.
Qed.

(** Separated pieces: [join] of texts that each emit their own list. *)
Lemma emits_join (sep : string) (frags : list string) (Ls : list (list nat)) :
  plain sep = true → boundary sep = true → sep ≠ "" →
  Forall2 emits frags Ls → emits (join sep frags) (concat Ls).
Proof.
  intros Hp Hb Hne H. induction H as [|t L frags Ls Ht Hrest IH]; cbn [concat].
  - by apply emits_plain.
  - destruct Hrest as [|t' L' frags' Ls' Ht' Hrest'].
    + cbn. rewrite app_nil_r. done.
    + rewrite join_cons_cons. apply emits_app; [| done |].
      * destruct sep; [done |]. done.
      * apply emits_plain_l; [done |]. apply IH.
Qed.

Lemma groupIndices_unfold conditions logic paramIndex :
  groupIndices (Group conditions logic) paramIndex
  = itemsIndices conditions paramIndex.
Proof.
  cbn [groupIndices]. revert paramIndex.
  induction conditions as [|[c|g] rest IH]; intros; cbn; [done | |];
    by rewrite IH.
Qed.

Lemma groupParams_unfold conditions logic :
  groupParams (Group conditions logic) = concat (map itemParams conditions).
Proof. done. Qed.

Lemma plainFields_unfold conditions logic :
  plainFields (Group conditions logic) = forallb plainItem conditions.
Proof. done. Qed.

(** ** The simple-condition branch *)

Lemma inPlaceholders_spec whole elems values paramIndex :
  inPlaceholders whole elems values paramIndex
  = (map placeholderText (seq paramIndex (length elems)),
     values ++ replicate (length elems) whole,
     paramIndex + length elems).
Proof.
  revert values paramIndex.
  induction elems as [|e rest IH]; intros values paramIndex; cbn.
  - by rewrite app_nil_r, Nat.add_0_r.
  - rewrite IH, <- app_assoc. cbn. do 2 f_equal. lia.
Qed.

Lemma flatInPlaceholders_spec elems values paramIndex :
  flatInPlaceholders elems values paramIndex
  = (map placeholderText (seq paramIndex (length elems)),
     values ++ map Scalar elems,
     paramIndex + length elems).
Proof.
  revert values paramIndex.
  induction elems as [|e rest IH]; intros values paramIndex; cbn.
  - by rewrite app_nil_r, Nat.add_0_r.
  - rewrite IH, <- app_assoc. cbn. do 2 f_equal. lia.
Qed.

Lemma conditionClause_state c values paramIndex :
  (conditionClause c values paramIndex).1.2 = values ++ conditionParams c
  ∧ (conditionClause c values paramIndex).2
    = paramIndex + length (conditionParams c).
Proof.
  unfold conditionClause, conditionParams.
  destruct (operator c), (value c) as [v|elems]; cbn;
    rewrite ?inPlaceholders_spec, ?app_nil_r, ?length_replicate; cbn;
    split; (done || lia).
Qed.

Lemma plain_operatorText op : plain (operatorText op) = true.
Proof. by destruct op. Qed.

Lemma plain_logicText l : plain (logicText l) = true.
Proof. by destruct l. Qed.

Lemma concat_singletons {A} (l : list A) : concat (map (λ x, [x]) l) = l.
Proof. induction l as [|x l IH]; cbn; [done | by rewrite IH]. Qed.

Lemma emits_placeholders (l : list nat) :
  emits (join ", " (map placeholderText l)) l.
Proof.
  rewrite <- (concat_singletons l) at 2.
  apply emits_join; [done .. |].
  induction l as [|i l IH]; cbn [map]; constructor; [| done].
  apply emits_placeholder.
Qed.

Lemma emits_close (t : string) (L : list nat) (closing : string) :
  plain closing = true → boundary closing = true →
  emits t L → emits (t +:+ closing) L.
Proof.
  intros Hp Hb Ht. rewrite <- (app_nil_r L).
  apply emits_app; [done | done |]. by apply emits_plain.
Qed.

Lemma conditionClause_emits c values paramIndex :
  plainCondition c = true →
  emits (conditionClause c values paramIndex).1.1 (conditionIndices c paramIndex).
Proof.
  unfold plainCondition, conditionIndices, conditionClause, conditionParams.
  intros Hf.
  assert (Hnull : ∀ op, emits (field c +:+ " " +:+ operatorText op) []).
  { intros op. apply emits_plain.
    rewrite !plain_app, Hf, plain_operatorText. done. }
  assert (Hone : ∀ op, emits (field c +:+ " " +:+ operatorText op
                                 +:+ " $" +:+ numberToString paramIndex)
                             [paramIndex]).
  { intros op. apply emits_plain_l; [done |].
    apply (emits_plain_l " "); [done |].
    apply emits_plain_l; [apply plain_operatorText |].
    apply (emits_plain_l " "); [done |]. apply emits_placeholder. }
  destruct (operator c), (value c) as [v|elems];
    first [ exact (Hnull OpIsNull) | exact (Hnull OpIsNotNull)
          | exact (Hone OpEq) | exact (Hone OpNe) | exact (Hone OpGt)
          | exact (Hone OpLt) | exact (Hone OpGe) | exact (Hone OpLe)
          | exact (Hone OpLike) | exact (Hone OpIn) | idtac ].
  rewrite inPlaceholders_spec, length_replicate. cbn.
  apply emits_plain_l; [done |].
  apply (emits_plain_l " IN ("); [done |].
  apply emits_close; [done .. |]. apply emits_placeholders.
Qed.

(** ** The loop and the recursion *)

Lemma buildItems_values items :
  Forall (nestedGroups (λ g, ∀ values paramIndex,
            (buildWhereClause g values paramIndex).2 = values ++ groupParams g))
         items →
  ∀ clauses values paramIndex,
    (buildItems items clauses values paramIndex).2
    = values ++ concat (map itemParams items).
Proof.
  induction 1 as [|[c|g] rest Hitem _ IH]; intros clauses values paramIndex;
    cbn [buildItems map concat itemParams].
  - by rewrite app_nil_r.
  - destruct (conditionClause_state c values paramIndex) as [Hv _].
    destruct (conditionClause c values paramIndex) as [[clause values'] idx'].
    cbn in Hv. subst values'. by rewrite IH, app_assoc.
  - cbn in Hitem. specialize (Hitem values paramIndex).
    destruct (buildWhereClause g values paramIndex) as [text values'].
    cbn in Hitem. subst values'. by rewrite IH, app_assoc.
Qed.

(** The array [values] after a call is the array before it followed by the
    parameters of the tree. *)
Lemma buildWhereClause_values g :
  ∀ values paramIndex,
    (buildWhereClause g values paramIndex).2 = values ++ groupParams g.
Proof.
  induction g as [conditions logic IH] using ConditionGroup_tree_ind.
  intros values paramIndex.
  rewrite buildWhereClause_unfold, groupParams_unfold.
  pose proof (buildItems_values conditions IH [] values paramIndex) as H.
  by destruct (buildItems conditions [] values paramIndex).
Qed.

Lemma buildItems_emits items :
  Forall (nestedGroups (λ g, plainFields g = true → ∀ values paramIndex,
            emits (buildWhereClause g values paramIndex).1
                  (groupIndices g paramIndex)))
         items →
  forallb plainItem items = true →
  ∀ clauses values paramIndex,
    ∃ frags Ls,
      (buildItems items clauses values paramIndex).1 = clauses ++ frags
      ∧ Forall2 emits frags Ls
      ∧ concat Ls = itemsIndices items paramIndex.
Proof.
  induction 1 as [|[c|g] rest Hitem _ IH]; intros Hplain clauses values paramIndex;
    cbn [buildItems itemsIndices].
  - exists [], []. by rewrite app_nil_r.
  - cbn in Hplain. apply andb_prop in Hplain as [Hc Hrest].
    pose proof (conditionClause_emits c values paramIndex Hc) as Hemit.
    destruct (conditionClause_state c values paramIndex) as [_ Hidx].
    destruct (conditionClause c values paramIndex) as [[clause values'] idx'].
    cbn in Hemit, Hidx. subst idx'.
    destruct (IH Hrest (clauses ++ [clause]) values'
                (paramIndex + length (conditionParams c)))
      as (frags & Ls & Hfr & Hem & Hcat).
    exists (clause :: frags), (conditionIndices c paramIndex :: Ls).
    rewrite Hfr, <- app_assoc. cbn. rewrite Hcat. by repeat constructor.
  - cbn in Hplain. apply andb_prop in Hplain as [Hg Hrest].
    cbn in Hitem. specialize (Hitem Hg values paramIndex).
    destruct (buildWhereClause g values paramIndex) as [text values'].
    cbn in Hitem.
    destruct (IH Hrest (clauses ++ ["(" +:+ text +:+ ")"]) values' paramIndex)
      as (frags & Ls & Hfr & Hem & Hcat).
    exists (("(" +:+ text +:+ ")") :: frags), (groupIndices g paramIndex :: Ls).
    rewrite Hfr, <- app_assoc. cbn [concat]. rewrite Hcat.
    split; [done |]. split; [| done]. constructor; [| done].
    apply (emits_plain_l "("); [done |]. by apply emits_close.
Qed.

(** Reading the clause text of a tree with dollar-free fields gives back the
    indices that the code assigned. *)
Lemma buildWhereClause_emits g :
  plainFields g = true →
  ∀ values paramIndex,
    emits (buildWhereClause g values paramIndex).1 (groupIndices g paramIndex).
Proof.
  induction g as [conditions logic IH] using ConditionGroup_tree_ind.
  intros Hplain values paramIndex.
  rewrite buildWhereClause_unfold, groupIndices_unfold.
  rewrite plainFields_unfold in Hplain.
  destruct (buildItems_emits conditions IH Hplain [] values paramIndex)
    as (frags & Ls & Hfr & Hem & Hcat).
  destruct (buildItems conditions [] values paramIndex) as [clauses values'].
  cbn in Hfr. subst clauses. cbn [fst]. rewrite <- Hcat.
  apply emits_join; [by destruct logic .. | done].
Qed.

Lemma itemsIndices_length items :
  Forall (nestedGroups (λ g, ∀ paramIndex,
            length (groupIndices g paramIndex) = length (groupParams g))) items →
  ∀ paramIndex,
    length (itemsIndices items paramIndex)
    = length (concat (map itemParams items)).
Proof.
  induction 1 as [|[c|g] rest Hitem _ IH]; intros paramIndex;
    cbn [itemsIndices map concat itemParams]; [done | |];
    rewrite !length_app, IH; [| by rewrite Hitem].
  unfold conditionIndices. by rewrite length_seq.
Qed.

Lemma groupIndices_length g :
  ∀ paramIndex, length (groupIndices g paramIndex) = length (groupParams g).
Proof.
  induction g as [conditions logic IH] using ConditionGroup_tree_ind.
  intros paramIndex. rewrite groupIndices_unfold, groupParams_unfold.
  by apply itemsIndices_length.
Qed.

(** ** C1, C3: numbering across nested groups *)

(** C1, at the failing input: a nested group followed by a simple condition,
    compiled from index 1.  The clause is ["(status = $1) AND age >= $1"]:
    the parent resumes at 1 although the nested group reached 2, so the
    indices read [1; 1] where the two parameters need [1; 2]; the numbering
    is not strictly increasing. *)
Theorem C1_nested_index_not_resumed :
  buildWhereClause Samples.nestedThenLeaf [] 1
  = ("(status = $1) AND age >= $1",
     [Scalar (QString "active"); Scalar (QNumber 18)])
  ∧ placeholderIndices (buildWhereClause Samples.nestedThenLeaf [] 1).1 = [1; 1]
  ∧ ¬ numberedInOrder Samples.nestedThenLeaf [] 1.
Proof.
  split; [by vm_compute |]. split; [by vm_compute |].
  unfold numberedInOrder. vm_compute. discriminate.
Qed.

(** C3, at the input of the claim: the second nested group starts again at
    1, so the clause is
    ["(status = $1 AND age >= $2) OR (department = $1 AND experience >= $2)"]
    and not the text that the claim gives; the four parameters are as
    claimed. *)
Theorem C3_two_level_tree_restarts_numbering :
  buildWhereClause Samples.twoLevel [] 1
  = ("(status = $1 AND age >= $2) OR (department = $1 AND experience >= $2)",
     [Scalar (QString "active"); Scalar (QNumber 18);
      Scalar (QString "IT"); Scalar (QNumber 5)])
  ∧ (buildWhereClause Samples.twoLevel [] 1).1
    ≠ "(status = $1 AND age >= $2) OR (department = $3 AND experience >= $4)"
  ∧ placeholderIndices (buildWhereClause Samples.twoLevel [] 1).1 = [1; 2; 1; 2].
Proof.
  split; [by vm_compute |]. split; [| by vm_compute].
  vm_compute. discriminate.
Qed.

(** Where the numbering is right: in a group of simple conditions only, the
    placeholders read [start], [start + 1], ... *)
Lemma itemsIndices_flat (cs : list WhereCondition) (paramIndex : nat) :
  itemsIndices (map ItemCondition cs) paramIndex
  = seq paramIndex (length (concat (map conditionParams cs))).
Proof.
  revert paramIndex. induction cs as [|c cs IH]; intros paramIndex; cbn; [done |].
  rewrite IH, length_app, seq_app. done.
Qed.

Lemma flat_group_numberedInOrder (cs : list WhereCondition) (logic : Logic)
    (values : list ConditionValue) (start : nat) :
  forallb plainCondition cs = true →
  numberedInOrder (Group (map ItemCondition cs) logic) values start.
Proof.
  intros Hplain. unfold numberedInOrder.
  set (g := Group (map ItemCondition cs) logic).
  assert (Hg : plainFields g = true).
  { unfold g. rewrite plainFields_unfold. clear g.
    induction cs as [|c cs IH]; cbn in *; [done |].
    apply andb_prop in Hplain as [-> Hcs]. by apply IH. }
  pose proof (emits_indices _ _ (buildWhereClause_emits g Hg values start)) as Hi.
  pose proof (buildWhereClause_values g values start) as Hv.
  destruct (buildWhereClause g values start) as [clause values'].
  cbn [fst snd] in Hi, Hv. subst values'. rewrite Hi.
  unfold g. rewrite groupIndices_unfold, groupParams_unfold, itemsIndices_flat.
  rewrite length_app, map_map. cbn [itemParams]. f_equal.
  by rewrite Nat.add_comm, Nat.add_sub.
Qed.

(** ** C2: the operator IN with a sequence *)

(** C2.  For a condition [field IN elems] with [n] elements,
    [buildWhereClause] allocates the [n] consecutive indices and emits them
    as the claim says, but it appends the whole sequence [n] times instead of
    its elements; the flat builder of [bulkUpdate] appends the elements.  At
    the input of the claim the parameters are
    [[["admin","manager"], ["admin","manager"]]], not [["admin","manager"]]. *)
Theorem C2_in_appends_whole_sequence :
  (∀ field elems values paramIndex,
      conditionClause (mkCondition field OpIn (Sequence elems)) values paramIndex
      = (field +:+ " IN ("
           +:+ join ", " (map placeholderText (seq paramIndex (length elems)))
           +:+ ")",
         values ++ replicate (length elems) (Sequence elems),
         paramIndex + length elems)
      ∧ flatConditionClause (mkCondition field OpIn (Sequence elems))
          values paramIndex
        = (field +:+ " IN ("
             +:+ join ", " (map placeholderText (seq paramIndex (length elems)))
             +:+ ")",
           values ++ map Scalar elems,
           paramIndex + length elems))
  ∧ buildWhereClause Samples.roleIn [] 1
    = ("role IN ($1, $2)",
       [Sequence [QString "admin"; QString "manager"];
        Sequence [QString "admin"; QString "manager"]])
  ∧ (buildWhereClause Samples.roleIn [] 1).2
    ≠ [Scalar (QString "admin"); Scalar (QString "manager")].
Proof.
  split; [| split; [by vm_compute | vm_compute; discriminate]].
  intros field elems values paramIndex.
  unfold conditionClause, flatConditionClause. cbn [operator value].
  by rewrite inPlaceholders_spec, flatInPlaceholders_spec.
Qed.

(** The same condition through [bulkUpdate]: the elements are the
    parameters, after the value of the SET clause. *)
Example bulkUpdate_roleIn :
  (bulkUpdate "users" (mkWhereOptions [Samples.role_in] AND)
     [("status", QString "inactive")] Samples.sampleDb []).2
  = [mkStatement
       "UPDATE users SET status = $1 WHERE role IN ($2, $3) RETURNING *"
       [Scalar (QString "inactive"); Scalar (QString "admin");
        Scalar (QString "manager")]].
Proof. by vm_compute. Qed.

(** ** C4: the operator IN with a value that is not a sequence *)

(** C4, the claim refuted at [role IN "admin"]: nothing is rejected; the
    clause ["role IN $1"] is produced from the scalar, and [findAllCustom]
    submits the statement built from it. *)
Lemma C4_in_with_scalar_is_not_rejected :
  buildWhereClause Samples.roleInScalar [] 1
  = ("role IN $1", [Scalar (QString "admin")])
  ∧ ¬ threw (findAllCustom "users" [] None (Some Samples.roleInScalar)
               Samples.sampleDb []).1
  ∧ (findAllCustom "users" [] None (Some Samples.roleInScalar)
       Samples.sampleDb []).2
    = [mkStatement "SELECT * FROM users WHERE role IN $1"
         [Scalar (QString "admin")]].
Proof.
  split; [by vm_compute |]. split; [| by vm_compute].
  intros [message H]. vm_compute in H. discriminate.
Qed.

(** C4 as amended: the operator IN with a scalar value takes the branch of
    the binary operators: one placeholder, the value appended, the text
    [field IN $k]. *)
Theorem C4_in_with_scalar_is_a_binary_operator
    (field : string) (v : QueryParams) (logic : Logic)
    (values : list ConditionValue) (paramIndex : nat) :
  conditionClause (mkCondition field OpIn (Scalar v)) values paramIndex
  = (field +:+ " IN $" +:+ numberToString paramIndex,
     values ++ [Scalar v], S paramIndex)
  ∧ buildWhereClause
      (Group [ItemCondition (mkCondition field OpIn (Scalar v))] logic)
      values paramIndex
    = (field +:+ " IN $" +:+ numberToString paramIndex, values ++ [Scalar v]).
Proof. split; reflexivity. Qed.

(** ** C5: as many placeholders as parameters *)

(** C5, the claim refuted at the field name ["$5"]: field names are written
    into the text as they are, so the clause ["$5 = $1"] holds two
    placeholders where the call has appended one parameter. *)
Lemma C5_dollar_in_field_counterexample :
  buildWhereClause Samples.dollarField [] 1 = ("$5 = $1", [Scalar (QNumber 1)])
  ∧ placeholderCount (buildWhereClause Samples.dollarField [] 1).1 = 2
  ∧ ¬ (∃ appended,
         (buildWhereClause Samples.dollarField [] 1).2 = [] ++ appended
         ∧ placeholderCount (buildWhereClause Samples.dollarField [] 1).1
           = length appended).
Proof.
  split; [by vm_compute |]. split; [by vm_compute |].
  intros (appended & Happended & Hcount).
  vm_compute in Happended. subst appended. vm_compute in Hcount. discriminate.
Qed.

(** C5 as amended.  For every tree whose field names hold no dollar sign,
    every contents of [values] and every start index, the clause text
    returned by [buildWhereClause] holds exactly as many placeholders as the
    call has appended elements to [values]. *)
Theorem C5_placeholders_match_parameters (group : ConditionGroup)
    (values : list ConditionValue) (paramIndex : nat) :
  plainFields group = true →
  let '(clause, values') := buildWhereClause group values paramIndex in
  ∃ appended,
    values' = values ++ appended ∧ placeholderCount clause = length appended.
Proof.
  intros Hplain.
  pose proof (emits_indices _ _ (buildWhereClause_emits group Hplain values paramIndex)) as Hi.
  pose proof (buildWhereClause_values group values paramIndex) as Hv.
  destruct (buildWhereClause group values paramIndex) as [clause values'].
  cbn [fst snd] in Hi, Hv. exists (groupParams group). split; [done |].
  unfold placeholderCount. by rewrite Hi, groupIndices_length.
Qed.

Lemma C5_placeholders_match_parameters_witness :
  plainFields Samples.twoLevel = true
  ∧ let '(clause, values') := buildWhereClause Samples.twoLevel [] 1 in
    ∃ appended,
      values' = [] ++ appended ∧ placeholderCount clause = length appended.
Proof.
  split; [reflexivity |].
  apply (C5_placeholders_match_parameters Samples.twoLevel [] 1). reflexivity.
Defined.

(** ** C7: IS NULL and IS NOT NULL *)

(** C7.  A condition with IS NULL or IS NOT NULL yields the text
    [field operator], leaves [values] and the index as they were, whatever
    its [value] is; a group made of [deleted_at IS NULL] compiles to
    ["deleted_at IS NULL"] with no parameter. *)
Theorem C7_null_tests_take_no_parameter (field : string) (v : ConditionValue)
    (logic : Logic) (values : list ConditionValue) (paramIndex : nat) :
  conditionClause (mkCondition field OpIsNull v) values paramIndex
  = (field +:+ " IS NULL", values, paramIndex)
  ∧ conditionClause (mkCondition field OpIsNotNull v) values paramIndex
    = (field +:+ " IS NOT NULL", values, paramIndex)
  ∧ buildWhereClause (Group [ItemCondition (mkCondition field OpIsNull v)] logic)
      values paramIndex
    = (field +:+ " IS NULL", values)
  ∧ buildWhereClause (Group [ItemCondition (mkCondition field OpIsNotNull v)] logic)
      values paramIndex
    = (field +:+ " IS NOT NULL", values)
  ∧ buildWhereClause Samples.deletedAtIsNull [] 1 = ("deleted_at IS NULL", []).
Proof. by destruct v. Qed.

(** ** C6, C10: an empty group *)

Lemma legacyWhereClauses_spec (conditions : Conditions)
    (values : list ConditionValue) (paramIndex : nat) :
  legacyWhereClauses conditions values paramIndex
  = (imap (λ i entry, entry.1 +:+ " = $" +:+ numberToString (paramIndex + i))
          conditions,
     values ++ map (λ entry, Scalar entry.2) conditions,
     paramIndex + length conditions).
Proof.
  revert values paramIndex.
  induction conditions as [|[key v] rest IH]; intros values paramIndex; cbn.
  - by rewrite app_nil_r, Nat.add_0_r.
  - rewrite IH, <- app_assoc, Nat.add_0_r. cbn.
    f_equal; [f_equal | lia]. f_equal.
    apply imap_ext. intros i entry _. cbn. by rewrite Nat.add_succ_r.
Qed.

Lemma findAllCustomStatement_empty_group tableName conditions sortOptions logic :
  findAllCustomStatement tableName conditions sortOptions (Some (Group [] logic))
  = findAllCustomStatement tableName conditions sortOptions None.
Proof. done. Qed.

(** What [findAllCustom] submits: the statement of
    [findAllCustomStatement], appended to the log, with the answer of the
    server as the outcome. *)
Lemma findAllCustom_submits tableName conditions sortOptions whereOptions
    (db : Database) (log : list Statement) :
  findAllCustom tableName conditions sortOptions whereOptions db log
  = (db log (mkStatement
               (findAllCustomStatement tableName conditions sortOptions
                  whereOptions).1
               (findAllCustomStatement tableName conditions sortOptions
                  whereOptions).2),
     log ++ [mkStatement
               (findAllCustomStatement tableName conditions sortOptions
                  whereOptions).1
               (findAllCustomStatement tableName conditions sortOptions
                  whereOptions).2]).
Proof.
  unfold findAllCustom.
  by destruct (findAllCustomStatement tableName conditions sortOptions
                 whereOptions).
Qed.

Lemma findAllCustomStatement_legacy tableName (entry : string * QueryParams)
    (rest : Conditions) sortOptions :
  findAllCustomStatement tableName (entry :: rest) sortOptions None
  = ("SELECT * FROM " +:+ tableName +:+ " WHERE "
       +:+ join " AND "
             (imap (λ i e, e.1 +:+ " = $" +:+ numberToString (1 + i))
                   (entry :: rest))
       +:+ orderByClause sortOptions,
     map (λ e, Scalar e.2) (entry :: rest)).
Proof.
  unfold findAllCustomStatement.
  rewrite bool_decide_eq_true_2 by (cbn; lia).
  rewrite legacyWhereClauses_spec. cbn [app].
  by rewrite !string_app_assoc.
Qed.

(** C6.  A group with no condition compiles to the empty text and appends
    nothing, at any level.  As the [whereOptions] of [findAllCustom] it is
    treated as no filter: the call submits what it submits without
    [whereOptions], with no legacy condition [SELECT * FROM table] and the
    sorting.  Nested in a tree it is not: the parent wraps the empty text,
    and at the failing input [findAllCustom] submits
    ["SELECT * FROM users WHERE ()"]. *)
Theorem C6_nested_empty_group_is_wrapped :
  (∀ logic values paramIndex,
      buildWhereClause (Group [] logic) values paramIndex = ("", values))
  ∧ (∀ tableName logic sortOptions (db : Database) (log : list Statement),
        findAllCustom tableName [] sortOptions (Some (Group [] logic)) db log
        = (db log (mkStatement
                     ("SELECT * FROM " +:+ tableName
                        +:+ orderByClause sortOptions) []),
           log ++ [mkStatement
                     ("SELECT * FROM " +:+ tableName
                        +:+ orderByClause sortOptions) []]))
  ∧ (∀ tableName logic conditions sortOptions (db : Database)
       (log : list Statement),
        findAllCustom tableName conditions sortOptions (Some (Group [] logic))
          db log
        = findAllCustom tableName conditions sortOptions None db log)
  ∧ buildWhereClause Samples.nestedEmpty [] 1 = ("()", [])
  ∧ findAllCustom "users" [] None (Some Samples.nestedEmpty)
      Samples.sampleDb []
    = (Samples.sampleDb [] (mkStatement "SELECT * FROM users WHERE ()" []),
       [mkStatement "SELECT * FROM users WHERE ()" []]).
Proof.
  split; [done |]. split; [| split; [done |]; split; by vm_compute].
  intros tableName logic sortOptions db log.
  by rewrite findAllCustom_submits.
Qed.

(** C10.  When [whereOptions] is a group with no condition, whatever its
    logic, [findAllCustom] does what it does without [whereOptions]: with a
    non-empty legacy map it submits the statement whose WHERE clause is the
    conjunction of the equalities of the map, numbered from 1, with the
    values of the map as parameters; with an empty one it submits the
    statement without WHERE clause.  In both cases the outcome is the answer
    of the server to that statement. *)
Theorem C10_empty_whereOptions_ignored (tableName : string) (logic : Logic)
    (conditions : Conditions) (sortOptions : option SortOptions)
    (db : Database) (log : list Statement) :
  findAllCustom tableName conditions sortOptions (Some (Group [] logic)) db log
  = findAllCustom tableName conditions sortOptions None db log
  ∧ (conditions ≠ [] →
     let statement :=
       mkStatement
         ("SELECT * FROM " +:+ tableName +:+ " WHERE "
            +:+ join " AND "
                  (imap (λ i entry,
                           entry.1 +:+ " = $" +:+ numberToString (1 + i))
                        conditions)
            +:+ orderByClause sortOptions)
         (map (λ entry, Scalar entry.2) conditions) in
     findAllCustom tableName conditions sortOptions (Some (Group [] logic))
       db log
     = (db log statement, log ++ [statement]))
  ∧ (conditions = [] →
     let statement :=
       mkStatement ("SELECT * FROM " +:+ tableName
                      +:+ orderByClause sortOptions) [] in
     findAllCustom tableName conditions sortOptions (Some (Group [] logic))
       db log
     = (db log statement, log ++ [statement])).
Proof.
  split; [done |]. split.
  - intros Hne statement. subst statement.
    rewrite findAllCustom_submits, findAllCustomStatement_empty_group.
    destruct conditions as [|entry rest]; [done |].
    by rewrite findAllCustomStatement_legacy.
  - intros -> statement. by rewrite findAllCustom_submits.
Qed.

Lemma C10_empty_whereOptions_ignored_witness :
  findAllCustom "users" [("name", QString "Ann"); ("age", QNumber 30)]
    (Some [("name", ASC)]) (Some (Group [] OR)) Samples.sampleDb []
  = (Samples.sampleDb []
       (mkStatement
          "SELECT * FROM users WHERE name = $1 AND age = $2 ORDER BY name ASC"
          [Scalar (QString "Ann"); Scalar (QNumber 30)]),
     [mkStatement
        "SELECT * FROM users WHERE name = $1 AND age = $2 ORDER BY name ASC"
        [Scalar (QString "Ann"); Scalar (QNumber 30)]])
  ∧ findAllCustom "users" [] None (Some (Group [] OR)) Samples.sampleDb []
    = (Samples.sampleDb [] (mkStatement "SELECT * FROM users" []),
       [mkStatement "SELECT * FROM users" []]).
Proof.
  pose proof (C10_empty_whereOptions_ignored "users" OR
                [("name", QString "Ann"); ("age", QNumber 30)]
                (Some [("name", ASC)]) Samples.sampleDb [])
    as (_ & Hlegacy & _).
  pose proof (C10_empty_whereOptions_ignored "users" OR [] None
                Samples.sampleDb []) as (_ & _ & Hnone).
  split.
  - rewrite Hlegacy; [reflexivity | discriminate].
  - rewrite Hnone; reflexivity.
Defined.

(** ** The array [values] on values *)

Lemma buildWhereClause_prefix (group : ConditionGroup)
    (values : list ConditionValue) (paramIndex : nat) :
  values `prefix_of` (buildWhereClause group values paramIndex).2.
Proof. rewrite buildWhereClause_values. by apply prefix_app_r. Qed.

(** ** C8: pagination *)

Lemma ceilOfQuotient_spec (n b : Z) :
  isSafeInteger n = true → isSafeInteger b = true → (0 < b)%Z →
  ∃ p, ceilOfQuotient (Finite n) b = Finite p ∧ ((p - 1) * b < n ≤ p * b)%Z.
Proof.
  intros Hn Hsafe Hb. exists (- (- n / b))%Z. split.
  - unfold ceilOfQuotient. rewrite Hn, Hsafe. cbn [andb negb].
    destruct (Z.eqb_spec b 0); [lia | done].
  - pose proof (Z.div_mod (- n) b ltac:(lia)).
    pose proof (Z.mod_pos_bound (- n) b Hb). nia.
Qed.

(** [parseInt] gives a [Finite] number only for a safe integer. *)
Lemma parseInt_safe (x : option string) (n : Z) :
  parseInt x = Finite n → isSafeInteger n = true.
Proof.
  unfold parseInt. destruct x as [s|]; [| done].
  destruct (match skipWhiteSpace s with
            | String "-" rest => (true, rest)
            | String "+" rest => (false, rest)
            | other => (false, other)
            end) as [negative digits].
  destruct (leadingDigits digits None) as [m|]; [| done].
  unfold safeNumber.
  destruct (isSafeInteger (if negative then (- m)%Z else m)) eqn:Hsafe;
    [| done].
  by intros [= <-].
Qed.

Section Pagination.

Variable tableName : string.
Variables (conditions : Conditions) (sortOptions : option SortOptions)
          (whereOptions : option WhereOptions).

Lemma findAllCustom_run (db : Database) (log : list Statement) :
  findAllCustom tableName conditions sortOptions (asGroup <$> whereOptions)
    db log
  = (db log (dataQuery tableName conditions sortOptions whereOptions),
     log ++ [dataQuery tableName conditions sortOptions whereOptions]).
Proof.
  unfold findAllCustom, dataQuery.
  by destruct (findAllCustomStatement _ _ _ _).
Qed.

(** C8.  For a page and a limit that are safe integers with a safe offset
    [(page - 1) * limit], when the server answers the COUNT with at least
    one row and answers the SELECT, a call of [findAllWithPagination]
    returns, and:
    the statements issued are the COUNT and the SELECT of [findAllCustom]
    for the same arguments, which do not depend on the page or the limit;
    the rows returned are the rows of the answer to that SELECT; the LIMIT
    and OFFSET text is appended to the [command] field of that answer;
    [page] and [limit] are echoed; [totalItems] is [parseInt] of the
    count, followed as far as the safe integers; and for a count [n] and a
    positive limit, [totalPages] is the least [p] with [n <= p * limit]. *)
Theorem C8_limit_goes_to_command_only (paginationOptions : PaginationOptions)
    (db : Database) (log : list Statement)
    (countResult dataResult : QueryResult) (row : Row) (others : list Row) :
  let countQ := countQuery tableName conditions whereOptions in
  let dataQ := dataQuery tableName conditions sortOptions whereOptions in
  isSafeInteger (page paginationOptions) = true →
  isSafeInteger (limit paginationOptions) = true →
  isSafeInteger ((page paginationOptions - 1) * limit paginationOptions) = true →
  db log countQ = Returns countResult →
  rows countResult = row :: others →
  db (log ++ [countQ]) dataQ = Returns dataResult →
  findAllWithPagination tableName paginationOptions conditions sortOptions
    whereOptions db log
  = (Returns
       {| data :=
            {| command :=
                 command dataResult
                   +:+ " LIMIT " +:+ intToString (limit paginationOptions)
                   +:+ " OFFSET "
                   +:+ intToString ((page paginationOptions - 1)
                                    * limit paginationOptions);
               rowCount := rowCount dataResult;
               rows := rows dataResult |};
          pagination :=
            {| pg_page := page paginationOptions;
               pg_limit := limit paginationOptions;
               totalItems := parseInt (row !! "count");
               totalPages := ceilOfQuotient (parseInt (row !! "count"))
                               (limit paginationOptions) |} |},
     log ++ [countQ; dataQ])
  ∧ findAllCustom tableName conditions sortOptions (asGroup <$> whereOptions)
      db (log ++ [countQ])
    = (Returns dataResult, log ++ [countQ; dataQ])
  ∧ (∀ otherOptions,
       (findAllWithPagination tableName otherOptions conditions sortOptions
          whereOptions db log).2
       = log ++ [countQ; dataQ])
  ∧ (∀ n, parseInt (row !! "count") = Finite n →
          (0 < limit paginationOptions)%Z →
      ∃ p, ceilOfQuotient (parseInt (row !! "count")) (limit paginationOptions)
           = Finite p
           ∧ ((p - 1) * limit paginationOptions < n
              ≤ p * limit paginationOptions)%Z).
Proof.
  intros countQ dataQ Hpage Hlimit Hoffset Hcount Hrows Hdata.
  assert (Hrun : ∀ options,
    findAllWithPagination tableName options conditions sortOptions
      whereOptions db log
    = (Returns
         {| data :=
              {| command :=
                   command dataResult
                     +:+ " LIMIT " +:+ intToString (limit options)
                     +:+ " OFFSET "
                     +:+ intToString ((page options - 1) * limit options);
                 rowCount := rowCount dataResult;
                 rows := rows dataResult |};
            pagination :=
              {| pg_page := page options;
                 pg_limit := limit options;
                 totalItems := parseInt (row !! "count");
                 totalPages := ceilOfQuotient (parseInt (row !! "count"))
                                 (limit options) |} |},
       log ++ [countQ; dataQ])).
  { intros options. unfold findAllWithPagination.
    subst countQ. unfold countQuery in Hcount, Hdata |- *.
    destruct (countStatement tableName conditions whereOptions)
      as [countSql values].
    unfold mbind, DB_bind, query at 1. rewrite Hcount, Hrows.
    unfold mret, DB_ret. rewrite findAllCustom_run. fold dataQ.
    rewrite Hdata. by rewrite <- app_assoc. }
  split; [apply Hrun |]. split.
  - rewrite findAllCustom_run. fold dataQ. rewrite Hdata.
    by rewrite <- app_assoc.
  - split; [intros options; by rewrite Hrun |].
    intros n Hn Hpositive. rewrite Hn.
    apply ceilOfQuotient_spec; [by apply (parseInt_safe _ _ Hn) | done ..].
Qed.

End Pagination.

Lemma C8_limit_goes_to_command_only_witness :
  findAllWithPagination "users" (mkPaginationOptions 2 10) []
    (Some [("name", ASC)]) (Some (mkWhereOptions [Samples.age_adult] AND))
    Samples.sampleDb []
  = (Returns
       {| data := {| command := "SELECT LIMIT 10 OFFSET 10";
                     rowCount := 1;
                     rows := [ {[ "count" := "42" ]} ] |};
          pagination := {| pg_page := 2; pg_limit := 10;
                           totalItems := Finite 42;
                           totalPages := Finite 5 |} |},
     [mkStatement "SELECT COUNT(*) FROM users WHERE age >= $1"
        [Scalar (QNumber 18)];
      mkStatement "SELECT * FROM users WHERE age >= $1 ORDER BY name ASC"
        [Scalar (QNumber 18)]])
  ∧ ∃ p, ceilOfQuotient (Finite 42) 10 = Finite p
         ∧ ((p - 1) * 10 < 42 ≤ p * 10)%Z.
Proof.
  destruct (C8_limit_goes_to_command_only "users" []
              (Some [("name", ASC)])
              (Some (mkWhereOptions [Samples.age_adult] AND))
              (mkPaginationOptions 2 10) Samples.sampleDb []
              (mkQueryResult "SELECT" 1 [ {[ "count" := "42" ]} ])
              (mkQueryResult "SELECT" 1 [ {[ "count" := "42" ]} ])
              {[ "count" := "42" ]} [] eq_refl eq_refl eq_refl
              eq_refl eq_refl eq_refl)
    as (Hrun & _ & _ & Hceil).
  split; [exact Hrun |].
  apply (Hceil 42%Z); reflexivity.
Defined.

(** ** The call on the store *)

Lemma store_buildWhereClause_step fuel (h : Store.heap) group values paramIndex :
  Store.buildWhereClause (S fuel) h group values paramIndex
  = match h !! group with
    | Some (Store.GroupObj conditions logic) =>
        '(clauses, h') ← Store.forOf fuel h conditions 0 [] values paramIndex;
        Some (join (" " +:+ logicText logic +:+ " ") clauses, h')
    | _ => None
    end.
Proof. done. Qed.

Lemma store_forOf_step fuel (h : Store.heap) conditions i clauses values
    paramIndex :
  Store.forOf (S fuel) h conditions i clauses values paramIndex
  = match h !! conditions with
    | Some (Store.ArrayObj items) =>
        match items !! i with
        | None => Some (clauses, h)
        | Some (Store.Ref item) =>
            match h !! item with
            | Some (Store.ConditionObj f op v) =>
                '(clause, h', paramIndex') ←
                  Store.conditionClause h f op v values paramIndex;
                Store.forOf fuel h' conditions (S i) (clauses ++ [clause])
                  values paramIndex'
            | Some (Store.GroupObj _ _) =>
                '(text, h') ←
                  Store.buildWhereClause fuel h item values paramIndex;
                Store.forOf fuel h' conditions (S i)
                  (clauses ++ ["(" +:+ text +:+ ")"]) values paramIndex
            | _ => None
            end
        | Some (Store.Prim _) => None
        end
    | _ => None
    end.
Proof. done. Qed.

Section Frame.

(** [t] holds the objects of the tree; [values] is not one of them. *)
Variables (t : Store.heap) (values : Store.loc).
Hypothesis values_fresh : t !! values = None.

Lemma lookup_withValues elems l o :
  t !! l = Some o → Store.withValues t values elems !! l = Some o.
Proof.
  intros Hl. unfold Store.withValues. rewrite lookup_insert_ne; [done |].
  intros ->. congruence.
Qed.

Lemma push_withValues elems x :
  Store.push (Store.withValues t values elems) values x
  = Some (Store.withValues t values (elems ++ [x])).
Proof.
  unfold Store.push, Store.withValues. rewrite lookup_insert_eq.
  by rewrite insert_insert_eq.
Qed.

Lemma asArray_withValues elems v cv :
  Store.reprValue t v cv →
  Store.asArray (Store.withValues t values elems) v
  = match cv with
    | Scalar _ => None
    | Sequence qs => Some (Store.Prim <$> qs)
    end.
Proof.
  intros [q | a qs Ha]; [done |]. cbn.
  by rewrite (lookup_withValues _ _ _ Ha).
Qed.

Lemma inPlaceholders_withValues count whole elems paramIndex :
  Store.inPlaceholders count whole (Store.withValues t values elems) values
    paramIndex
  = Some (map placeholderText (seq paramIndex count),
          Store.withValues t values (elems ++ replicate count whole),
          paramIndex + count).
Proof.
  revert elems paramIndex.
  induction count as [|count IH]; intros elems paramIndex; cbn.
  - by rewrite app_nil_r, Nat.add_0_r.
  - rewrite push_withValues. cbn. rewrite IH. cbn.
    rewrite <- app_assoc. cbn. do 3 f_equal. lia.
Qed.

(** A simple condition: the text is the text of [conditionClause] on
    values, and [values] grows by the references or scalars that stand for
    the parameters of the condition. *)
Lemma conditionClause_withValues f op v cv elems paramIndex
    (pureValues : list ConditionValue) :
  Store.reprValue t v cv →
  ∃ added,
    Store.conditionClause (Store.withValues t values elems) f op v values
      paramIndex
    = Some ((conditionClause (mkCondition f op cv) pureValues paramIndex).1.1,
            Store.withValues t values (elems ++ added),
            (conditionClause (mkCondition f op cv) pureValues paramIndex).2)
    ∧ Forall2 (Store.reprValue t) added
        (conditionParams (mkCondition f op cv)).
Proof.
  intros Hv. unfold Store.conditionClause, conditionClause, conditionParams.
  rewrite (asArray_withValues elems v cv Hv). cbn [operator value field].
  assert (Hnull : ∃ added : list Store.jsval,
             Some (f +:+ " " +:+ operatorText op,
                   Store.withValues t values elems, paramIndex)
             = Some (f +:+ " " +:+ operatorText op,
                     Store.withValues t values (elems ++ added), paramIndex)
             ∧ Forall2 (Store.reprValue t) added []).
  { exists []. by rewrite app_nil_r. }
  assert (Hone : ∃ added : list Store.jsval,
             (h' ← Store.push (Store.withValues t values elems) values v;
              Some (f +:+ " " +:+ operatorText op
                      +:+ " $" +:+ numberToString paramIndex,
                    h', S paramIndex))
             = Some (f +:+ " " +:+ operatorText op
                       +:+ " $" +:+ numberToString paramIndex,
                     Store.withValues t values (elems ++ added), S paramIndex)
             ∧ Forall2 (Store.reprValue t) added [cv]).
  { exists [v]. rewrite push_withValues. split; [done |].
    by repeat constructor. }
  destruct op, cv as [q | qs];
    first [ exact Hnull | exact Hone | idtac ].
  inversion Hv as [| a qs' Ha]; subst.
  rewrite inPlaceholders_withValues, inPlaceholders_spec, length_fmap.
  exists (replicate (length qs) (Store.Ref a)). split; [done |].
  apply Forall2_replicate. by constructor.
Qed.

Lemma forOf_withValues conditions itemLocs :
  t !! conditions = Some (Store.ArrayObj (Store.Ref <$> itemLocs)) →
  ∀ todo items,
    Forall2 (Store.reprItem t) todo items →
    Forall (nestedGroups (runsLike t values)) items →
    ∀ visited, itemLocs = visited ++ todo →
    ∀ clauses elems paramIndex (pureValues : list ConditionValue),
      ∃ enough added,
        (∀ fuel, enough ≤ fuel →
           Store.forOf fuel (Store.withValues t values elems) conditions
             (length visited) clauses values paramIndex
           = Some ((buildItems items clauses pureValues paramIndex).1,
                   Store.withValues t values (elems ++ added)))
        ∧ Forall2 (Store.reprValue t) added (concat (map itemParams items)).
Proof.
  intros Harray todo items Hrepr.
  induction Hrepr as [|l item todo items Hitem Hrest IH];
    intros Hnested visited Hlocs clauses elems paramIndex pureValues.
  - exists 1, []. split; [| constructor].
    intros [|fuel] Hfuel; [lia |].
    rewrite store_forOf_step, (lookup_withValues _ _ _ Harray), Hlocs, app_nil_r.
    rewrite (lookup_ge_None_2 _ (length visited)) by by rewrite length_fmap.
    by rewrite app_nil_r.
  - apply Forall_cons in Hnested as [Hhere Hnested].
    assert (Hat : (Store.Ref <$> itemLocs) !! length visited
                  = Some (Store.Ref l)).
    { rewrite Hlocs, fmap_app, fmap_cons.
      rewrite <- (length_fmap Store.Ref visited). by apply list_lookup_middle. }
    assert (Hnext : itemLocs = (visited ++ [l]) ++ todo)
      by by rewrite <- app_assoc.
    destruct Hitem as [l f op v cv Hl Hv | l g Hg].
    + destruct (conditionClause_withValues f op v cv elems paramIndex
                  pureValues Hv) as (added1 & Hclause & Hadded1).
      cbn [buildItems map concat itemParams].
      destruct (conditionClause (mkCondition f op cv) pureValues paramIndex)
        as [[clause pureValues'] paramIndex'].
      cbn [fst snd] in Hclause.
      destruct (IH Hnested (visited ++ [l]) Hnext (clauses ++ [clause])
                  (elems ++ added1) paramIndex' pureValues')
        as (enough & added2 & Hloop & Hadded2).
      exists (S enough), (added1 ++ added2). split.
      * intros [|fuel] Hfuel; [lia |].
        rewrite store_forOf_step, (lookup_withValues _ _ _ Harray), Hat.
        rewrite (lookup_withValues _ _ _ Hl), Hclause. cbn.
        replace (S (length visited)) with (length (visited ++ [l]))
          by (rewrite length_app; cbn; lia).
        rewrite Hloop by lia. by rewrite app_assoc.
      * by apply Forall2_app.
    + cbn in Hhere.
      destruct (Hhere l Hg elems paramIndex pureValues)
        as (enough1 & added1 & Hcall & Hadded1).
      cbn [buildItems map concat itemParams].
      destruct (buildWhereClause g pureValues paramIndex)
        as [text pureValues'].
      cbn [fst] in Hcall.
      destruct (IH Hnested (visited ++ [l]) Hnext
                  (clauses ++ ["(" +:+ text +:+ ")"])
                  (elems ++ added1) paramIndex pureValues')
        as (enough2 & added2 & Hloop & Hadded2).
      exists (S (enough1 `max` enough2)), (added1 ++ added2). split.
      * intros [|fuel] Hfuel; [lia |].
        rewrite store_forOf_step, (lookup_withValues _ _ _ Harray), Hat.
        inversion Hg as [? cs ? ? logic Hgroup _ _]; subst.
        rewrite (lookup_withValues _ _ _ Hgroup).
        rewrite Hcall by lia. cbn.
        replace (S (length visited)) with (length (visited ++ [l]))
          by (rewrite length_app; cbn; lia).
        rewrite Hloop by lia. by rewrite app_assoc.
      * by apply Forall2_app.
Qed.

Lemma buildWhereClause_withValues g : runsLike t values g.
Proof.
  induction g as [conditions logic IH] using ConditionGroup_tree_ind.
  intros l Hrepr elems paramIndex pureValues.
  inversion Hrepr as [? cs itemLocs ? ? Hgroup Harray Hitems]; subst.
  destruct (forOf_withValues cs itemLocs Harray itemLocs conditions
              Hitems IH [] eq_refl [] elems paramIndex pureValues)
    as (enough & added & Hloop & Hadded).
  exists (S enough), added. split; [| done].
  intros [|fuel] Hfuel; [lia |].
  rewrite buildWhereClause_unfold.
  rewrite store_buildWhereClause_step, (lookup_withValues _ _ _ Hgroup).
  cbn [length] in Hloop. rewrite Hloop by lia.
  by destruct (buildItems conditions [] pureValues paramIndex).
Qed.

End Frame.

(** The sample store: after the call [values] holds, after its former
    element, the reference to the array of the condition twice; that array
    is the one object, with its two elements as before. *)
Example store_roleIn :
  match Store.buildWhereClause 3 Samples.sampleHeap 1 5 2 with
  | Some (clause, h') =>
      clause = "role IN ($2, $3)"
      ∧ h' !! 5%positive
        = Some (Store.ArrayObj [Store.Prim (QNumber 7); Store.Ref 4; Store.Ref 4])
      ∧ h' !! 4%positive = Samples.sampleHeap !! 4%positive
  | None => False
  end.
Proof. by vm_compute. Qed.

(** ** C9: [values] is only appended to, the tree is left alone *)

(** C9.  Take a store [h] in which [values] is an array holding [elems] and
    in which the tree is laid out at [group] without using the object
    [values].  With enough fuel the call returns; the store after it is [h]
    with [values] holding [elems] followed by the elements appended, so the
    former elements are a prefix, every other object is what it was, and
    the same tree is still laid out at [group].  On values, the array after
    the call has the array before it as a prefix. *)
Theorem C9_values_appended_tree_untouched (h : Store.heap)
    (group values : Store.loc) (tree : ConditionGroup)
    (elems : list Store.jsval) (paramIndex : nat)
    (pureValues : list ConditionValue) :
  h !! values = Some (Store.ArrayObj elems) →
  Store.reprGroup (delete values h) group tree →
  (∃ enough added,
     let h' := <[values := Store.ArrayObj (elems ++ added)]> h in
     (∀ fuel, enough ≤ fuel →
        Store.buildWhereClause fuel h group values paramIndex
        = Some ((buildWhereClause tree pureValues paramIndex).1, h'))
     ∧ h' !! values = Some (Store.ArrayObj (elems ++ added))
     ∧ (∀ l, l ≠ values → h' !! l = h !! l)
     ∧ Store.reprGroup (delete values h') group tree
     ∧ Forall2 (Store.reprValue (delete values h)) added (groupParams tree))
  ∧ pureValues `prefix_of` (buildWhereClause tree pureValues paramIndex).2.
Proof.
  intros Hvalues Hrepr. split; [| apply buildWhereClause_prefix].
  assert (Hfresh : delete values h !! values = None) by apply lookup_delete_eq.
  assert (Hwith : ∀ xs, Store.withValues (delete values h) values xs
                        = <[values := Store.ArrayObj xs]> h).
  { intros xs. unfold Store.withValues. apply insert_delete_eq. }
  destruct (buildWhereClause_withValues (delete values h) values Hfresh tree
              group Hrepr elems paramIndex pureValues)
    as (enough & added & Hrun & Hadded).
  exists enough, added. cbn zeta.
  rewrite !Hwith in Hrun. rewrite (insert_id h values) in Hrun by done.
  split; [done |]. split; [apply lookup_insert_eq |].
  split; [intros l Hl; by apply lookup_insert_ne |].
  split; [| done]. by rewrite delete_insert_eq.
Qed.

Lemma C9_values_appended_tree_untouched_witness :
  (∃ enough added,
     let h' := <[5%positive :=
                   Store.ArrayObj ([Store.Prim (QNumber 7)] ++ added)]>
                 Samples.sampleHeap in
     (∀ fuel, enough ≤ fuel →
        Store.buildWhereClause fuel Samples.sampleHeap 1 5 2
        = Some ((buildWhereClause Samples.roleIn [Scalar (QNumber 7)] 2).1, h'))
     ∧ h' !! 5%positive
       = Some (Store.ArrayObj ([Store.Prim (QNumber 7)] ++ added))
     ∧ (∀ l, l ≠ 5%positive → h' !! l = Samples.sampleHeap !! l)
     ∧ Store.reprGroup (delete 5%positive h') 1 Samples.roleIn
     ∧ Forall2 (Store.reprValue (delete 5%positive Samples.sampleHeap)) added
         (groupParams Samples.roleIn))
  ∧ [Scalar (QNumber 7)]
      `prefix_of` (buildWhereClause Samples.roleIn [Scalar (QNumber 7)] 2).2.
Proof.
  apply (C9_values_appended_tree_untouched Samples.sampleHeap 1 5
           Samples.roleIn [Store.Prim (QNumber 7)] 2 [Scalar (QNumber 7)]).
  - reflexivity.
  - apply (Store.repr_group _ 1%positive 2%positive [3%positive]);
      [reflexivity | reflexivity |].
    constructor; [| constructor].
    apply (Store.repr_condition _ 3%positive "role" OpIn (Store.Ref 4));
      [reflexivity |].
    constructor. reflexivity.
Defined.

(** * Further properties of the facade *)

(** ** Numbered lists of placeholders and equalities *)

Lemma imap_seq {A B} (f : nat → B) (k : nat) (l : list A) :
  imap (λ i _, f (k + i)) l = map f (seq k (length l)).
Proof.
  revert k. induction l as [|x l IH]; intros k; cbn; [done |].
  rewrite Nat.add_0_r. f_equal. rewrite <- IH.
  apply imap_ext. intros i y _. cbn. by rewrite Nat.add_succ_r.
Qed.

Lemma plain_join (sep : string) (parts : list string) :
  plain sep = true → forallb plain parts = true → plain (join sep parts) = true.
Proof.
  intros Hsep. induction parts as [|a [|b rest] IH]; cbn [forallb]; intros H.
  - done.
  - cbn. by apply andb_prop in H as [-> _].
  - rewrite join_cons_cons, !plain_app, Hsep.
    apply andb_prop in H as [-> H]. cbn. by apply IH.
Qed.

Lemma emits_equalities (keys : list string) (k : nat) :
  forallb plain keys = true →
  Forall2 emits
    (imap (λ i key, key +:+ " = $" +:+ numberToString (k + i)) keys)
    (map (λ i, [i]) (seq k (length keys))).
Proof.
  revert k. induction keys as [|key keys IH]; intros k H; cbn; [constructor |].
  cbn in H. apply andb_prop in H as [Hkey Hkeys].
  constructor.
  - rewrite Nat.add_0_r. apply emits_plain_l; [done |].
    apply (emits_plain_l " = "); [done |]. apply emits_placeholder.
  - rewrite (imap_ext _ (λ i key', key' +:+ " = $" +:+ numberToString (S k + i)));
      [by apply IH |].
    intros i y _. cbn. by rewrite Nat.add_succ_r.
Qed.

Lemma plainKeys_fst {A} (entries : list (string * A)) :
  plainKeys entries = true → forallb plain (map fst entries) = true.
Proof.
  unfold plainKeys. induction entries as [|e l IH]; cbn; [done |].
  intros [-> Hl]%andb_prop. by apply IH.
Qed.

(** The SET clause of [update] and [bulkUpdate]. *)
Lemma emits_set_clauses (data : Conditions) :
  plainKeys data = true →
  emits (join ", "
           (imap (λ index key, key +:+ " = $" +:+ numberToString (index + 1))
                 (map fst data)))
        (seq 1 (length data)).
Proof.
  intros Hkeys.
  rewrite <- (concat_singletons (seq 1 (length data))).
  apply emits_join; [done .. |].
  rewrite (imap_ext _ (λ i key, key +:+ " = $" +:+ numberToString (1 + i)));
    [| intros i key _; cbn; by rewrite Nat.add_1_r].
  pose proof (emits_equalities (map fst data) 1 (plainKeys_fst _ Hkeys)) as H.
  by rewrite length_map in H.
Qed.

(** The WHERE clause of a dictionary of equalities numbered from 1. *)
Lemma emits_legacy_where (entries : Conditions) :
  plainKeys entries = true →
  emits (join " AND "
           (imap (λ i e, e.1 +:+ " = $" +:+ numberToString (1 + i)) entries))
        (seq 1 (length entries)).
Proof.
  intros Hkeys.
  rewrite <- (concat_singletons (seq 1 (length entries))).
  apply emits_join; [done .. |].
  pose proof (emits_equalities (map fst entries) 1 (plainKeys_fst _ Hkeys)) as H.
  by rewrite length_map, imap_fmap in H.
Qed.

(** One placeholder between two texts without placeholder. *)
Lemma emits_placeholder_between (before after : string) (n : nat) :
  plain before = true → plain after = true → boundary after = true →
  emits (before +:+ "$" +:+ numberToString n +:+ after) [n].
Proof.
  intros Hb Ha Hab. apply emits_plain_l; [done |].
  intros r Hr.
  change (("$" +:+ numberToString n +:+ after) +:+ r)
    with (String "$" ((numberToString n +:+ after) +:+ r)).
  cbn [scan]. eval_digit. cbv iota.
  change (Ascii.eqb "$" "$") with true. cbv iota. cbn [flush app].
  rewrite string_app_assoc, scan_number.
  rewrite scan_boundary by by apply boundary_app.
  by rewrite scan_plain.
Qed.

(** ** The flat builders *)

Lemma flatParams_length (c : WhereCondition) :
  length (flatParams c) = length (conditionParams c).
Proof.
  unfold flatParams, conditionParams.
  destruct (operator c), (value c); cbn;
    by rewrite ?length_map, ?length_replicate.
Qed.

Lemma flatParams_no_sequence (c : WhereCondition) :
  inWithSequence c = false → flatParams c = conditionParams c.
Proof.
  unfold inWithSequence, flatParams, conditionParams.
  by destruct (operator c), (value c).
Qed.

(** The flat builders and [buildWhereClause] treat a simple condition alike,
    up to what they append for the operator IN. *)
Lemma flatConditionClause_spec (c : WhereCondition)
    (values pureValues : list ConditionValue) (paramIndex : nat) :
  flatConditionClause c values paramIndex
  = ((conditionClause c pureValues paramIndex).1.1,
     values ++ flatParams c,
     paramIndex + length (flatParams c)).
Proof.
  unfold flatConditionClause, conditionClause, flatParams.
  destruct (operator c), (value c) as [v|elems]; cbn;
    rewrite ?flatInPlaceholders_spec, ?inPlaceholders_spec, ?app_nil_r,
      ?length_map, ?Nat.add_0_r; cbn; by rewrite ?Nat.add_1_r.
Qed.

Lemma flatWhereClauses_spec (cs : list WhereCondition)
    (values pureValues : list ConditionValue) (paramIndex : nat)
    (clauses : list string) :
  clauses ++ (flatWhereClauses cs values paramIndex).1.1
  = (buildItems (map ItemCondition cs) clauses pureValues paramIndex).1
  ∧ (flatWhereClauses cs values paramIndex).1.2
    = values ++ concat (map flatParams cs)
  ∧ (flatWhereClauses cs values paramIndex).2
    = paramIndex + length (concat (map flatParams cs)).
Proof.
  revert values pureValues paramIndex clauses.
  induction cs as [|c cs IH]; intros values pureValues paramIndex clauses;
    cbn [flatWhereClauses map buildItems concat].
  - cbn. by rewrite !app_nil_r, Nat.add_0_r.
  - rewrite (flatConditionClause_spec c values pureValues).
    destruct (conditionClause_state c pureValues paramIndex) as [_ Hidx].
    destruct (conditionClause c pureValues paramIndex)
      as [[clause pureValues'] paramIndex'].
    cbn [fst snd] in *. subst paramIndex'.
    rewrite <- flatParams_length.
    destruct (IH (values ++ flatParams c) pureValues'
                (paramIndex + length (flatParams c)) (clauses ++ [clause]))
      as (Hclauses & Hvalues & Hindex).
    destruct (flatWhereClauses cs (values ++ flatParams c)
                (paramIndex + length (flatParams c)))
      as [[clauses' values'] paramIndex'].
    cbn [fst snd] in *. subst values' paramIndex'.
    rewrite <- Hclauses, <- !app_assoc, length_app. cbn.
    repeat split; (done || lia).
Qed.


(** ** [bulkDelete] and [bulkUpdate] *)

Lemma query_submits (statement : Statement) :
  submits (query (text statement) (params statement)) statement.
Proof. intros db log. by destruct statement. Qed.





(** X3.  Neither [bulkDelete] nor [bulkUpdate] looks at the number of
    conditions: with an empty list each one submits its statement with
    nothing between WHERE and RETURNING, where [findAllCustom] leaves the
    WHERE clause out. *)
Theorem bulk_statements_with_no_condition (tableName : string) (logic : Logic)
    (entry : string * QueryParams) (data : Conditions) :
  submits (Facade.bulkDelete tableName (mkWhereOptions [] logic))
          (mkStatement ("DELETE FROM " +:+ tableName
                          +:+ " WHERE  RETURNING *") [])
  ∧ (∃ setText,
       submits (bulkUpdate tableName (mkWhereOptions [] logic) (entry :: data))
               (mkStatement ("UPDATE " +:+ tableName +:+ " SET " +:+ setText
                               +:+ " WHERE  RETURNING *")
                  (map (λ e, Scalar e.2) (entry :: data))))
  ∧ submits (findAllCustom tableName [] None (Some (Group [] logic)))
            (mkStatement ("SELECT * FROM " +:+ tableName) []).
Proof.
  split; [apply (query_submits (mkStatement _ _)) |]. split.
  - eexists. intros db log. unfold bulkUpdate. cbn. reflexivity.
  - intros db log. rewrite findAllCustom_submits.
    assert (H : findAllCustomStatement tableName [] None (Some (Group [] logic))
                = ("SELECT * FROM " +:+ tableName, [])).
    { transitivity (("SELECT * FROM " +:+ tableName) +:+ "",
                    @nil ConditionValue); [done |].
      by rewrite string_app_nil_r. }
    by rewrite H.
Qed.

(** ** [findAll], [create], [update] *)

Lemma findAllClauses_spec (conditions : Conditions) (index : nat)
    (values : list ConditionValue) :
  Facade.findAllClauses conditions index values
  = (imap (λ i entry, entry.1 +:+ " = $" +:+ numberToString (S index + i))
          conditions,
     values ++ map (λ entry, Scalar entry.2) conditions).
Proof.
  revert index values.
  induction conditions as [|[key v] rest IH]; intros index values; cbn.
  - by rewrite app_nil_r.
  - rewrite IH, <- app_assoc, Nat.add_0_r, Nat.add_1_r. cbn. do 2 f_equal.
    apply imap_ext. intros i entry _. cbn. by rewrite Nat.add_succ_r.
Qed.

(** X4.  [findAll] is [findAllCustom] without sorting and without
    [whereOptions]: the two methods, which number their placeholders in
    different ways, submit the same statement with the same parameters; with
    no condition it is [SELECT * FROM table] without parameter. *)
Theorem findAll_is_findAllCustom (tableName : string) (conditions : Conditions) :
  Facade.findAll tableName conditions
  = findAllCustom tableName conditions None None
  ∧ submits (Facade.findAll tableName conditions)
            (Facade.findAllStatement tableName conditions)
  ∧ Facade.findAllStatement tableName []
    = mkStatement ("SELECT * FROM " +:+ tableName) [].
Proof.
  split; [| split; [apply query_submits | done]].
  unfold Facade.findAll, Facade.findAllStatement, findAllCustom,
    findAllCustomStatement.
  destruct conditions as [|entry rest].
  { rewrite !bool_decide_eq_false_2 by (cbn; lia). cbn [orderByClause].
    by rewrite string_app_nil_r. }
  rewrite !bool_decide_eq_true_2 by (cbn; lia).
  rewrite findAllClauses_spec, legacyWhereClauses_spec. cbn [orderByClause].
  by rewrite string_app_nil_r.
Qed.

(** X5.  [findAll]: with a table name and keys that hold no dollar sign,
    the statement submitted has the placeholders [$1] to [$n] in the order
    of the keys, and its parameters are the values of the keys in that
    order. *)
Theorem findAll_well_numbered (tableName : string) (conditions : Conditions) :
  plain tableName = true → plainKeys conditions = true →
  submits (Facade.findAll tableName conditions)
          (Facade.findAllStatement tableName conditions)
  ∧ wellNumbered (Facade.findAllStatement tableName conditions)
  ∧ params (Facade.findAllStatement tableName conditions)
    = map (λ entry, Scalar entry.2) conditions.
Proof.
  intros Ht Hkeys. split; [apply query_submits |].
  unfold wellNumbered, Facade.findAllStatement.
  destruct conditions as [|entry rest].
  - rewrite bool_decide_eq_false_2 by (cbn; lia). cbn [text params length seq map].
    split; [| done]. apply emits_indices.
    apply (emits_plain_l "SELECT * FROM "); [done |]. by apply emits_plain.
  - rewrite bool_decide_eq_true_2 by (cbn; lia).
    rewrite findAllClauses_spec. cbn [text params app]. split; [| done].
    rewrite length_map. apply emits_indices.
    rewrite string_app_assoc.
    apply (emits_plain_l "SELECT * FROM "); [done |].
    apply emits_plain_l; [done |].
    apply (emits_plain_l " WHERE "); [done |].
    by apply emits_legacy_where.
Qed.

Lemma findAll_well_numbered_witness :
  submits (Facade.findAll "users"
             [("is_active", QBoolean true); ("age", QNumber 25)])
          (mkStatement "SELECT * FROM users WHERE is_active = $1 AND age = $2"
             [Scalar (QBoolean true); Scalar (QNumber 25)])
  ∧ wellNumbered
      (Facade.findAllStatement "users"
         [("is_active", QBoolean true); ("age", QNumber 25)])
  ∧ params (Facade.findAllStatement "users"
              [("is_active", QBoolean true); ("age", QNumber 25)])
    = [Scalar (QBoolean true); Scalar (QNumber 25)].
Proof.
  apply (findAll_well_numbered "users"
           [("is_active", QBoolean true); ("age", QNumber 25)]);
    reflexivity.
Defined.

(** X6.  [create] submits one statement whose parameters are the values of
    [data] in the order of its keys; with names that hold no dollar sign
    its placeholders are [$1] to [$n] in that order.  With no data the
    statement is still submitted, with empty lists of columns and of
    values. *)
Theorem create_well_numbered (tableName : string) (data : Conditions) :
  submits (Facade.create tableName data) (Facade.createStatement tableName data)
  ∧ params (Facade.createStatement tableName data)
    = map (λ entry, Scalar entry.2) data
  ∧ (plain tableName = true → plainKeys data = true →
     wellNumbered (Facade.createStatement tableName data))
  ∧ Facade.createStatement tableName []
    = mkStatement ("INSERT INTO " +:+ tableName
                     +:+ " () VALUES () RETURNING *") [].
Proof.
  split; [apply query_submits |]. split; [done |]. split; [| done].
  intros Ht Hkeys. unfold wellNumbered, Facade.createStatement.
  cbn [text params]. rewrite length_map. apply emits_indices.
  apply (emits_plain_l "INSERT INTO "); [done |].
  apply emits_plain_l; [done |].
  apply (emits_plain_l " ("); [done |].
  apply emits_plain_l; [by apply plain_join, plainKeys_fst |].
  apply (emits_plain_l ") VALUES ("); [done |].
  apply emits_close; [done .. |].
  rewrite (imap_ext _ (λ i (_ : ConditionValue), placeholderText (1 + i)));
    [| intros i v _; cbn; by rewrite Nat.add_1_r].
  rewrite imap_seq, length_map. apply emits_placeholders.
Qed.

Lemma create_well_numbered_witness :
  wellNumbered
    (Facade.createStatement "users"
       [("name", QString "John Doe"); ("email", QString "john@example.com")])
  ∧ Facade.createStatement "users"
      [("name", QString "John Doe"); ("email", QString "john@example.com")]
    = mkStatement "INSERT INTO users (name, email) VALUES ($1, $2) RETURNING *"
        [Scalar (QString "John Doe"); Scalar (QString "john@example.com")].
Proof.
  split; [| reflexivity].
  apply (create_well_numbered "users"
           [("name", QString "John Doe");
            ("email", QString "john@example.com")]); reflexivity.
Defined.

(** X7.  [update] submits one statement whose parameters are the values of
    [data] followed by the id; with names that hold no dollar sign its
    placeholders are [$1] to [$n] in order, so that the placeholder of
    [WHERE id =] is the last one and stands for the id. *)
Theorem update_id_is_last (tableName : string) (id : QueryParams)
    (data : Conditions) :
  submits (Facade.update tableName id data)
          (Facade.updateStatement tableName id data)
  ∧ params (Facade.updateStatement tableName id data)
    = map (λ entry, Scalar entry.2) data ++ [Scalar id]
  ∧ (plain tableName = true → plainKeys data = true →
     wellNumbered (Facade.updateStatement tableName id data)
     ∧ last (placeholderIndices
               (text (Facade.updateStatement tableName id data)))
       = Some (length data + 1)).
Proof.
  split; [apply query_submits |]. split; [done |].
  intros Ht Hkeys.
  assert (Hwell : wellNumbered (Facade.updateStatement tableName id data)).
  { unfold wellNumbered, Facade.updateStatement. cbn [text params].
    rewrite length_app, length_map. cbn [length]. rewrite seq_app.
    apply emits_indices.
    apply (emits_plain_l "UPDATE "); [done |].
    apply emits_plain_l; [done |].
    apply (emits_plain_l " SET "); [done |].
    apply emits_app; [done | by apply emits_set_clauses |].
    rewrite Nat.add_comm.
    apply (emits_placeholder_between " WHERE id = " " RETURNING *"); done. }
  split; [done |]. rewrite Hwell. cbn [params Facade.updateStatement].
  rewrite length_app, length_map. cbn [length].
  rewrite seq_app. cbn [seq]. rewrite last_snoc. f_equal. lia.
Qed.

Lemma update_id_is_last_witness :
  wellNumbered
    (Facade.updateStatement "users" (QNumber 1) [("name", QString "John Smith")])
  ∧ last (placeholderIndices
            (text (Facade.updateStatement "users" (QNumber 1)
                     [("name", QString "John Smith")])))
    = Some (length [("name", QString "John Smith")] + 1)
  ∧ Facade.updateStatement "users" (QNumber 1) [("name", QString "John Smith")]
    = mkStatement "UPDATE users SET name = $1 WHERE id = $2 RETURNING *"
        [Scalar (QString "John Smith"); Scalar (QNumber 1)].
Proof.
  destruct (update_id_is_last "users" (QNumber 1)
              [("name", QString "John Smith")]) as (_ & _ & H).
  destruct (H eq_refl eq_refl) as [Hwell Hlast].
  split; [exact Hwell |]. split; [exact Hlast | reflexivity].
Defined.

(** ** [findAllCustom] and [findAllWithPagination] *)

(** X8.  When [whereOptions] holds at least one item, the legacy conditions
    of [findAllCustom] take no part: the call submits the statement whose
    WHERE clause is the text of [buildWhereClause] numbered from 1, with
    the parameters it appends, whatever the legacy map is.  The COUNT of
    [findAllWithPagination] leaves the legacy map out in the same way. *)
Theorem whereOptions_replace_legacy_conditions (tableName : string)
    (conditions : Conditions) (sortOptions : option SortOptions) :
  (∀ group : ConditionGroup,
      conditionsOf group ≠ [] →
      submits (findAllCustom tableName conditions sortOptions (Some group))
              (mkStatement
                 ("SELECT * FROM " +:+ tableName +:+ " WHERE "
                    +:+ (buildWhereClause group [] 1).1
                    +:+ orderByClause sortOptions)
                 (buildWhereClause group [] 1).2))
  ∧ (∀ whereOptions : WhereOptions,
        wo_conditions whereOptions ≠ [] →
        countQuery tableName conditions (Some whereOptions)
        = countQuery tableName [] (Some whereOptions)).
Proof.
  split.
  - intros group Hne db log. rewrite findAllCustom_submits.
    unfold findAllCustomStatement.
    rewrite bool_decide_eq_true_2 by (destruct (conditionsOf group); cbn; [done | lia]).
    destruct (buildWhereClause group [] 1) as [clause values'].
    cbn [fst snd]. by rewrite !string_app_assoc.
  - intros whereOptions Hne. unfold countQuery, countStatement.
    by rewrite !bool_decide_eq_true_2
      by (destruct (wo_conditions whereOptions); cbn; [done | lia]).
Qed.

Lemma whereOptions_replace_legacy_conditions_witness :
  submits (findAllCustom "users" [("name", QString "Ann")] None
             (Some Samples.roleInScalar))
          (mkStatement "SELECT * FROM users WHERE role IN $1"
             [Scalar (QString "admin")])
  ∧ countQuery "users" [("name", QString "Ann")]
      (Some (mkWhereOptions [Samples.age_adult] AND))
    = mkStatement "SELECT COUNT(*) FROM users WHERE age >= $1"
        [Scalar (QNumber 18)].
Proof.
  destruct (whereOptions_replace_legacy_conditions "users"
              [("name", QString "Ann")] None) as [Hgroup Hcount].
  split.
  - apply (Hgroup Samples.roleInScalar). discriminate.
  - rewrite (Hcount (mkWhereOptions [Samples.age_adult] AND)); [reflexivity |].
    discriminate.
Defined.

(** X9.  How [findAllWithPagination] fails.  An error of the COUNT is thrown
    again and the SELECT is not submitted; a COUNT answered without row
    makes the call throw a [TypeError], again before the SELECT; an error of
    the SELECT is thrown again after both statements. *)
Theorem findAllWithPagination_failures (tableName : string)
    (paginationOptions : PaginationOptions) (conditions : Conditions)
    (sortOptions : option SortOptions) (whereOptions : option WhereOptions)
    (db : Database) (log : list Statement) :
  let countQ := countQuery tableName conditions whereOptions in
  let dataQ := dataQuery tableName conditions sortOptions whereOptions in
  (∀ message,
      db log countQ = Throws message →
      findAllWithPagination tableName paginationOptions conditions sortOptions
        whereOptions db log
      = (Throws message, log ++ [countQ]))
  ∧ (∀ countResult,
        db log countQ = Returns countResult → rows countResult = [] →
        findAllWithPagination tableName paginationOptions conditions
          sortOptions whereOptions db log
        = (Throws "TypeError: Cannot read properties of undefined (reading 'count')",
           log ++ [countQ]))
  ∧ (∀ countResult row others message,
        db log countQ = Returns countResult →
        rows countResult = row :: others →
        db (log ++ [countQ]) dataQ = Throws message →
        findAllWithPagination tableName paginationOptions conditions
          sortOptions whereOptions db log
        = (Throws message, log ++ [countQ; dataQ])).
Proof.
  intros countQ dataQ.
  assert (Hstart : ∀ outcome,
    db log countQ = outcome →
    findAllWithPagination tableName paginationOptions conditions sortOptions
      whereOptions db log
    = match outcome with
      | Throws message => (Throws message, log ++ [countQ])
      | Returns countResult =>
          match rows countResult with
          | [] => (Throws "TypeError: Cannot read properties of undefined (reading 'count')",
                   log ++ [countQ])
          | row :: _ =>
              match db (log ++ [countQ]) dataQ with
              | Throws message => (Throws message, log ++ [countQ; dataQ])
              | Returns dataResult =>
                  ((findAllWithPagination tableName paginationOptions
                      conditions sortOptions whereOptions db log).1,
                   log ++ [countQ; dataQ])
              end
          end
      end).
  { intros outcome Hcount. subst countQ dataQ.
    unfold findAllWithPagination, countQuery in *.
    destruct (countStatement tableName conditions whereOptions)
      as [countSql values].
    unfold mbind, DB_bind, query at 1 2. rewrite Hcount.
    destruct outcome as [countResult | message]; [| done].
    destruct (rows countResult) as [|row others]; [done |].
    unfold mret, DB_ret. rewrite findAllCustom_run.
    destruct (db _ (dataQuery _ _ _ _)); by rewrite <- app_assoc. }
  split; [| split].
  - intros message Hcount. by rewrite (Hstart _ Hcount).
  - intros countResult Hcount Hrows. by rewrite (Hstart _ Hcount), Hrows.
  - intros countResult row others message Hcount Hrows Hdata.
    by rewrite (Hstart _ Hcount), Hrows, Hdata.
Qed.

Lemma findAllWithPagination_failures_witness :
  findAllWithPagination "users" (mkPaginationOptions 1 10) [] None None
    (λ _ _, Throws "connection refused") []
  = (Throws "connection refused", [mkStatement "SELECT COUNT(*) FROM users" []])
  ∧ findAllWithPagination "users" (mkPaginationOptions 1 10) [] None None
      (λ _ _, Returns (mkQueryResult "SELECT" 0 [])) []
    = (Throws "TypeError: Cannot read properties of undefined (reading 'count')",
       [mkStatement "SELECT COUNT(*) FROM users" []])
  ∧ findAllWithPagination "users" (mkPaginationOptions 1 10) [] None None
      (λ log _, match log with
                | [] => Returns (mkQueryResult "SELECT" 1 [ {[ "count" := "3" ]} ])
                | _ => Throws "statement timeout"
                end) []
    = (Throws "statement timeout",
       [mkStatement "SELECT COUNT(*) FROM users" [];
        mkStatement "SELECT * FROM users" []]).
Proof.
  split; [| split].
  - destruct (findAllWithPagination_failures "users" (mkPaginationOptions 1 10)
                [] None None (λ _ _, Throws "connection refused") [])
      as (H & _ & _).
    exact (H "connection refused" eq_refl).
  - destruct (findAllWithPagination_failures "users" (mkPaginationOptions 1 10)
                [] None None (λ _ _, Returns (mkQueryResult "SELECT" 0 [])) [])
      as (_ & H & _).
    exact (H (mkQueryResult "SELECT" 0 []) eq_refl eq_refl).
  - destruct (findAllWithPagination_failures "users" (mkPaginationOptions 1 10)
                [] None None
                (λ log _, match log with
                          | [] => Returns (mkQueryResult "SELECT" 1
                                             [ {[ "count" := "3" ]} ])
                          | _ => Throws "statement timeout"
                          end) [])
      as (_ & _ & H).
    exact (H (mkQueryResult "SELECT" 1 [ {[ "count" := "3" ]} ])
             {[ "count" := "3" ]} [] "statement timeout"
             eq_refl eq_refl eq_refl).
Defined.

(** X10.  The COUNT and the SELECT of [findAllWithPagination] filter by the
    same WHERE text, whatever the arguments; their parameters are the same
    as long as no condition is IN with a sequence, for which the COUNT
    passes the elements and the SELECT the sequence itself, once for each
    element. *)
Theorem count_and_select_share_where (tableName : string)
    (conditions : Conditions) (sortOptions : option SortOptions)
    (whereOptions : option WhereOptions) :
  (∃ whereText,
     text (countQuery tableName conditions whereOptions)
     = "SELECT COUNT(*) FROM " +:+ tableName +:+ whereText
     ∧ text (dataQuery tableName conditions sortOptions whereOptions)
       = "SELECT * FROM " +:+ tableName +:+ whereText
           +:+ orderByClause sortOptions)
  ∧ (noSequence whereOptions = true →
     params (countQuery tableName conditions whereOptions)
     = params (dataQuery tableName conditions sortOptions whereOptions))
  ∧ params (countQuery tableName conditions
              (Some (mkWhereOptions [Samples.role_in] AND)))
    ≠ params (dataQuery tableName conditions sortOptions
                (Some (mkWhereOptions [Samples.role_in] AND))).
Proof.
  assert (Hlegacy :
    (∃ whereText,
       text (countQuery tableName conditions None)
       = "SELECT COUNT(*) FROM " +:+ tableName +:+ whereText
       ∧ text (dataQuery tableName conditions sortOptions None)
         = "SELECT * FROM " +:+ tableName +:+ whereText
             +:+ orderByClause sortOptions)
    ∧ params (countQuery tableName conditions None)
      = params (dataQuery tableName conditions sortOptions None)).
  { unfold countQuery, dataQuery, countStatement, findAllCustomStatement.
    cbn [fmap option_fmap option_map].
    destruct conditions as [|entry rest].
    - rewrite !bool_decide_eq_false_2 by (cbn; lia). cbn [text params].
      split; [| done]. exists "". by rewrite !string_app_nil_r.
    - rewrite !bool_decide_eq_true_2 by (cbn; lia).
      rewrite legacyWhereClauses_spec. cbn [text params]. split; [| done].
      eexists. split; [apply string_app_assoc |].
      by rewrite !string_app_assoc. }
  split; [| split].
  - destruct whereOptions as [w|]; [| apply Hlegacy].
    destruct (wo_conditions w) as [|c cs] eqn:Hcs.
    + destruct Hlegacy as [Htext _].
      unfold countQuery, dataQuery, countStatement, findAllCustomStatement in *.
      cbn [fmap option_fmap option_map] in *. unfold asGroup in *.
      cbn [conditionsOf] in *.
      rewrite Hcs. cbn [map]. apply Htext.
    + unfold countQuery, dataQuery, countStatement, findAllCustomStatement.
      cbn [fmap option_fmap option_map]. unfold asGroup.
      cbn [conditionsOf].
      rewrite buildWhereClause_unfold.
      destruct (flatWhereClauses_spec (wo_conditions w) [] [] 1 [])
        as (Hclauses & _ & _).
      rewrite Hcs in *.
      rewrite !bool_decide_eq_true_2 by (cbn; lia).
      destruct (flatWhereClauses (c :: cs) [] 1) as [[clauses values'] next].
      destruct (buildItems (map ItemCondition (c :: cs)) [] [] 1)
        as [clauses' values''].
      cbn [fst snd app text] in *. subst clauses'.
      eexists. split; [apply string_app_assoc |].
      by rewrite !string_app_assoc.
  - intros Hno. destruct whereOptions as [w|]; [| apply Hlegacy].
    destruct (wo_conditions w) as [|c cs] eqn:Hcs.
    + destruct Hlegacy as [_ Hparams].
      unfold countQuery, dataQuery, countStatement, findAllCustomStatement in *.
      cbn [fmap option_fmap option_map] in *. unfold asGroup in *.
      cbn [conditionsOf] in *.
      rewrite Hcs. cbn [map]. apply Hparams.
    + unfold countQuery, dataQuery, countStatement, findAllCustomStatement.
      cbn [fmap option_fmap option_map]. unfold asGroup.
      cbn [conditionsOf].
      pose proof (buildWhereClause_values
                    (Group (map ItemCondition (wo_conditions w)) (wo_logic w))
                    [] 1) as Hdata.
      destruct (flatWhereClauses_spec (wo_conditions w) [] [] 1 [])
        as (_ & Hcount & _).
      rewrite groupParams_unfold, map_map in Hdata. cbn [itemParams] in Hdata.
      cbn [noSequence] in Hno. rewrite Hcs in *.
      rewrite !bool_decide_eq_true_2 by (cbn; lia).
      destruct (flatWhereClauses (c :: cs) [] 1) as [[clauses values'] next].
      destruct (buildWhereClause _ [] 1) as [clause values''].
      cbn [fst snd app params] in *. subst values' values''.
      f_equal. clear -Hno.
      induction (c :: cs) as [|x l IH]; cbn in *; [done |].
      apply andb_prop in Hno as [Hx Hl].
      rewrite flatParams_no_sequence by by destruct (inWithSequence x).
      f_equal. by apply IH.
  - vm_compute. discriminate.
Qed.

Lemma count_and_select_share_where_witness :
  params (countQuery "users" []
            (Some (mkWhereOptions [Samples.age_adult; Samples.status_active] OR)))
  = params (dataQuery "users" [] (Some [("name", ASC)])
              (Some (mkWhereOptions [Samples.age_adult; Samples.status_active] OR))).
Proof.
  apply (count_and_select_share_where "users" [] (Some [("name", ASC)])
           (Some (mkWhereOptions [Samples.age_adult; Samples.status_active] OR))).
  reflexivity.
Defined.

(** ** [buildWhereClause]: every placeholder has a parameter *)

Lemma itemsIndices_in_range (items : list GroupItem) :
  Forall (nestedGroups (λ g, ∀ start,
            Forall (λ i, start ≤ i < start + length (groupParams g))
                   (groupIndices g start))) items →
  ∀ start,
    Forall (λ i, start ≤ i < start + length (concat (map itemParams items)))
           (itemsIndices items start).
Proof.
  induction 1 as [|[c|g] rest Hitem _ IH]; intros start;
    cbn [itemsIndices map concat itemParams]; [constructor | |];
    rewrite length_app; apply Forall_app; split.
  - unfold conditionIndices. apply Forall_forall. intros i Hi%elem_of_seq. lia.
  - eapply Forall_impl; [apply IH |]. cbn. intros i Hi. lia.
  - eapply Forall_impl; [apply Hitem |]. cbn. intros i Hi. lia.
  - eapply Forall_impl; [apply IH |]. cbn. intros i Hi. lia.
Qed.

Lemma groupIndices_in_range (g : ConditionGroup) :
  ∀ start,
    Forall (λ i, start ≤ i < start + length (groupParams g))
           (groupIndices g start).
Proof.
  induction g as [conditions logic IH] using ConditionGroup_tree_ind.
  intros start. rewrite groupIndices_unfold, groupParams_unfold.
  by apply itemsIndices_in_range.
Qed.

(** X11.  For every tree whose fields hold no dollar sign, nested or not,
    every placeholder of the text of [buildWhereClause] lies between the
    start index and the start index plus the number of elements appended:
    compiled from 1 into an empty array, as [findAllCustom] does, each
    placeholder has a parameter at its position. *)
Theorem placeholders_stay_in_range (group : ConditionGroup)
    (values : list ConditionValue) (start : nat) :
  plainFields group = true →
  let '(clause, values') := buildWhereClause group values start in
  Forall (λ i, start ≤ i < start + (length values' - length values))
         (placeholderIndices clause).
Proof.
  intros Hplain.
  pose proof (emits_indices _ _
                (buildWhereClause_emits group Hplain values start)) as Hi.
  pose proof (buildWhereClause_values group values start) as Hv.
  destruct (buildWhereClause group values start) as [clause values'].
  cbn [fst snd] in Hi, Hv. subst values'. rewrite Hi, length_app.
  eapply Forall_impl; [apply groupIndices_in_range |].
  cbn. intros i Hrange. lia.
Qed.

Lemma placeholders_stay_in_range_witness :
  let '(clause, values') := buildWhereClause Samples.twoLevel [] 1 in
  Forall (λ i, 1 ≤ i < 1 + (length values' - length (@nil ConditionValue)))
         (placeholderIndices clause).
Proof.
  apply (placeholders_stay_in_range Samples.twoLevel [] 1). reflexivity.
Defined.

(** ** [bulkCreate] *)

Lemma rollback_last (client : Transaction.Client)
    (log : list Transaction.Request) (error : string) :
  (∃ message, (Transaction.rollback client log error).1 = Throws message)
  ∧ (Transaction.rollback client log error).2
    = log ++ [Transaction.rollbackRequest].
Proof.
  unfold Transaction.rollback.
  destruct (client log Transaction.rollbackRequest); cbn; eauto.
Qed.

(** X12.  [bulkCreate] as a transaction.  With no row it throws before
    taking a client; when the pool gives no client the error is thrown and
    nothing is sent.  Otherwise BEGIN is sent first, and the call either
    returns the answer to the INSERT, having sent exactly BEGIN, INSERT and
    COMMIT, or throws with ROLLBACK as the last request sent: it never
    returns without COMMIT and never throws without ROLLBACK. *)
Theorem bulkCreate_commits_or_rolls_back (tableName : string)
    (first : Conditions) (others : list Conditions)
    (log : list Transaction.Request) :
  let dataArray := first :: others in
  let insert := Transaction.insertRequest tableName first dataArray in
  (∀ pool, Transaction.bulkCreate tableName pool [] log
           = (Throws "No data provided for bulk create operation", log))
  ∧ (∀ error,
       Transaction.bulkCreate tableName (Throws error) dataArray log
       = (Throws error, log))
  ∧ (∀ client,
       let outcome :=
         Transaction.bulkCreate tableName (Returns client) dataArray log in
       (∃ sent, outcome.2 = log ++ Transaction.beginRequest :: sent)
       ∧ match outcome.1 with
         | Returns result =>
             outcome.2 = log ++ [Transaction.beginRequest; insert;
                                 Transaction.commitRequest]
             ∧ client (log ++ [Transaction.beginRequest]) insert
               = Returns result
         | Throws _ => last outcome.2 = Some Transaction.rollbackRequest
         end).
Proof.
  intros dataArray insert. split; [done |]. split; [done |].
  intros client outcome. subst outcome dataArray.
  cbn [Transaction.bulkCreate]. fold insert.
  destruct (client log Transaction.beginRequest) as [? | e1].
  2: { destruct (rollback_last client (log ++ [Transaction.beginRequest]) e1)
         as [[m Hm] Hlog].
       rewrite Hm, Hlog. split; [| by rewrite last_snoc].
       exists [Transaction.rollbackRequest]. by rewrite <- app_assoc. }
  destruct (client (log ++ [Transaction.beginRequest]) insert) as [result | e2].
  2: { destruct (rollback_last client
                   (log ++ [Transaction.beginRequest; insert]) e2)
         as [[m Hm] Hlog].
       rewrite Hm, Hlog. split; [| by rewrite last_snoc].
       exists [insert; Transaction.rollbackRequest]. by rewrite <- app_assoc. }
  destruct (client (log ++ [Transaction.beginRequest; insert])
              Transaction.commitRequest) as [? | e3].
  2: { destruct (rollback_last client
                   (log ++ [Transaction.beginRequest; insert;
                            Transaction.commitRequest]) e3)
         as [[m Hm] Hlog].
       rewrite Hm, Hlog. split; [| by rewrite last_snoc].
       exists [insert; Transaction.commitRequest; Transaction.rollbackRequest].
       by rewrite <- app_assoc. }
  cbn [fst snd]. split; [| done].
  by exists [insert; Transaction.commitRequest].
Qed.




(** ** The shared pool *)

Lemma constructAll_shared (env : option string)
    (calls : list (string * option string)) (shared : PoolSingleton.Pool) :
  let outcome := PoolSingleton.constructAll env calls (Some shared) in
  Forall (λ service, PoolSingleton.pool service = shared) outcome.1
  ∧ outcome.2 = Some shared.
Proof.
  induction calls as [|[tableName connectionString] rest IH]; cbn; [done |].
  destruct (PoolSingleton.constructAll env rest (Some shared))
    as [services final].
  cbn in *. destruct IH as [IH ->]. split; [| done]. by constructor.
Qed.

(** X14.  The pool is made once.  Whatever services are constructed one
    after the other, starting with no pool: all of them hold the pool made
    for the first one, from its connection string (or the environment's
    when it is absent or empty); the connection strings given to the later
    constructors are never used. *)
Theorem later_connection_strings_are_ignored (env : option string)
    (tableName : string) (connectionString : option string)
    (later : list (string * option string)) :
  let outcome :=
    PoolSingleton.constructAll env
      ((tableName, connectionString) :: later) None in
  Forall (λ service,
            PoolSingleton.pool service
            = PoolSingleton.newPool env connectionString)
         outcome.1
  ∧ map PoolSingleton.tableName outcome.1 = tableName :: map fst later
  ∧ outcome.2 = Some (PoolSingleton.newPool env connectionString).
Proof.
  cbn.
  pose proof (constructAll_shared env later
                (PoolSingleton.newPool env connectionString)) as Hshared.
  assert (Hnames : ∀ instance,
            map PoolSingleton.tableName
                (PoolSingleton.constructAll env later instance).1
            = map fst later).
  { clear. induction later as [|[t c] rest IH]; intros instance; [done |].
    cbn. destruct instance as [existing |]; cbn.
    - specialize (IH (Some existing)).
      destruct (PoolSingleton.constructAll env rest (Some existing)).
      cbn in *. by rewrite IH.
    - specialize (IH (Some (PoolSingleton.newPool env c))).
      destruct (PoolSingleton.constructAll env rest
                  (Some (PoolSingleton.newPool env c))).
      cbn in *. by rewrite IH. }
  specialize (Hnames (Some (PoolSingleton.newPool env connectionString))).
  destruct (PoolSingleton.constructAll env later
              (Some (PoolSingleton.newPool env connectionString)))
    as [services final].
  cbn in *. destruct Hshared as [Hall ->].
  split; [by constructor |]. split; [by rewrite Hnames | done].
Qed.

(** ** The uploader *)

Lemma split_not_nil (sep : ascii) (s : string) : Uploader.split sep s ≠ [].
Proof.
  destruct s as [|c rest]; cbn; [done |].
  destruct (Ascii.eqb c sep); [done |].
  by destruct (Uploader.split sep rest).
Qed.

Lemma join_split (sep : ascii) (s : string) :
  join (String sep "") (Uploader.split sep s) = s.
Proof.
  induction s as [|c rest IH]; cbn [Uploader.split]; [done |].
  destruct (Ascii.eqb_spec c sep) as [-> | Hne].
  - pose proof (split_not_nil sep rest) as Hnil.
    destruct (Uploader.split sep rest) as [|head tail]; [done |].
    rewrite join_cons_cons, IH. done.
  - pose proof (split_not_nil sep rest) as Hnil.
    destruct (Uploader.split sep rest) as [|head [|next tail]].
    + done.
    + cbn in *. by rewrite IH.
    + rewrite join_cons_cons. rewrite join_cons_cons in IH.
      by rewrite <- IH.
Qed.

Lemma split_without_sep (sep : ascii) (s : string) :
  Uploader.contains sep s = false → Uploader.split sep s = [s].
Proof.
  induction s as [|c rest IH]; cbn; [done |].
  intros [Hc Hrest]%orb_false_elim. rewrite Hc, (IH Hrest). done.
Qed.

Lemma split_with_sep (sep : ascii) (s : string) :
  Uploader.contains sep s = true → 2 ≤ length (Uploader.split sep s).
Proof.
  induction s as [|c rest IH]; cbn; [done |].
  destruct (Ascii.eqb c sep); cbn.
  - intros _. pose proof (split_not_nil sep rest).
    destruct (Uploader.split sep rest); [done | cbn; lia].
  - intros Hrest. specialize (IH Hrest).
    destruct (Uploader.split sep rest); cbn in *; lia.
Qed.

Lemma join_snoc (sep : string) (parts : list string) (x : string) :
  parts ≠ [] → join sep (parts ++ [x]) = join sep parts +:+ sep +:+ x.
Proof.
  induction parts as [|a [|b rest] IH]; intros Hne; [done | done |].
  change ((a :: b :: rest) ++ [x]) with (a :: b :: (rest ++ [x])).
  rewrite !join_cons_cons.
  change (b :: rest ++ [x]) with ((b :: rest) ++ [x]).
  rewrite IH by done. by rewrite !string_app_assoc.
Qed.

(** X15.  The storage key when neither [keyName] nor [keySuffix] is given
    (or they are empty).  A file name with a dot is the key as it is; a
    file name without a dot gets a dot in front.  A prefix, when given and
    not empty, comes before it with a slash. *)
Theorem default_key_is_the_file_name (params : Uploader.UploadFileParams) :
  default "" (Uploader.keyName params) = "" →
  default "" (Uploader.keySuffix params) = "" →
  let name := Uploader.name (Uploader.file params) in
  let stored := if Uploader.contains "." name then name else "." +:+ name in
  Uploader.finalKey params
  = match default "" (Uploader.keyPrefix params) with
    | EmptyString => stored
    | prefix => prefix +:+ "/" +:+ stored
    end.
Proof.
  intros HkeyName HkeySuffix name stored.
  assert (Hstored :
    Uploader.orElse "" (join "." (removelast (Uploader.split "." name)))
      +:+ "." +:+
      Uploader.orElse "" (default "" (last (Uploader.split "." name)))
    = stored).
  { subst stored. cbn [Uploader.orElse].
    destruct (Uploader.contains "." name) eqn:Hdot.
    - pose proof (split_with_sep _ _ Hdot) as Hlen.
      pose proof (join_split "." name) as Hjoin.
      destruct (Uploader.split "." name) as [|a l] using rev_ind;
        [cbn in Hlen; lia |].
      rewrite removelast_last, last_snoc. cbn [default].
      rewrite length_app in Hlen. cbn in Hlen.
      rewrite join_snoc in Hjoin by (destruct l; [cbn in Hlen; lia | done]).
      done.
    - by rewrite (split_without_sep _ _ Hdot). }
  unfold Uploader.finalKey. fold name.
  rewrite HkeyName, HkeySuffix.
  destruct (default "" (Uploader.keyPrefix params)); by rewrite Hstored.
Qed.

Lemma default_key_is_the_file_name_witness :
  Uploader.finalKey
    (Uploader.mkParams (Uploader.mkFile "photo.final.jpg" "image/jpeg" 10 "x")
       "media" (Some "images") None None)
  = "images/photo.final.jpg"
  ∧ Uploader.finalKey
      (Uploader.mkParams (Uploader.mkFile "README" "" 10 "x")
         "media" None None None)
    = ".README".
Proof.
  split.
  - exact (default_key_is_the_file_name
             (Uploader.mkParams
                (Uploader.mkFile "photo.final.jpg" "image/jpeg" 10 "x")
                "media" (Some "images") None None) eq_refl eq_refl).
  - exact (default_key_is_the_file_name
             (Uploader.mkParams (Uploader.mkFile "README" "" 10 "x")
                "media" None None None) eq_refl eq_refl).
Defined.

Lemma uploadToStorage_log (service : Uploader.FileUploaderService)
    (bucketName key data contentType : string)
    (s3Client : Uploader.S3Client) (log : list Uploader.PutObjectCommand) :
  let command :=
    Uploader.mkPut bucketName key data "public-read"
      (Uploader.orElse contentType "application/octet-stream") in
  let outcome :=
    Uploader.uploadToStorage service bucketName key data contentType
      s3Client log in
  outcome.2 = log ++ [command]
  ∧ match outcome.1 with
    | Returns url =>
        url = Uploader.baseRemoteUrl service +:+ "/" +:+ key
        ∧ s3Client log command = Returns (Some 200)
    | Throws _ => s3Client log command ≠ Returns (Some 200)
    end.
Proof.
  cbn. unfold Uploader.uploadToStorage.
  destruct (s3Client log _) as [status | error]; cbn; [| done].
  split; [done |]. case_bool_decide; [by subst | congruence].
Qed.

Lemma accepts_passes (sha256 : string → string)
    (service : Uploader.FileUploaderService)
    (params : Uploader.UploadFileParams)
    (s3Client : Uploader.S3Client) (log : list Uploader.PutObjectCommand) :
  Uploader.accepts service params = true →
  Uploader.uploadFile sha256 service params s3Client log
  = match Uploader.fileCache service
            !! Uploader.calculateFileHash sha256 (Uploader.file params) with
    | Some cached => (Returns cached, service, log)
    | None =>
        match Uploader.uploadToStorage service (Uploader.bucketName params)
                (Uploader.finalKey params)
                (Uploader.bytes (Uploader.file params))
                (Uploader.orElse (Uploader.type (Uploader.file params))
                   "application/octet-stream")
                s3Client log with
        | (Returns url, log') =>
            (Returns url,
             Uploader.mkUploader (Uploader.baseRemoteUrl service)
               (Uploader.maxFileSize service)
               (Uploader.allowedFileTypes service)
               (<[Uploader.calculateFileHash sha256 (Uploader.file params)
                    := url]> (Uploader.fileCache service)),
             log')
        | (Throws error, log') => (Throws error, service, log')
        end
    end.
Proof.
  unfold Uploader.accepts, Uploader.uploadFile.
  intros [[Hbucket Hsize]%andb_prop Htype]%andb_prop.
  apply negb_true_iff in Hbucket. rewrite Hbucket.
  apply bool_decide_eq_true in Hsize.
  rewrite (bool_decide_eq_false_2 (_ < _)) by lia.
  apply orb_prop in Htype as [Hnone | Hin].
  - apply bool_decide_eq_true in Hnone. rewrite Hnone. done.
  - rewrite Hin, andb_false_r. done.
Qed.

Lemma refused_before_hashing (sha256 : string → string)
    (service : Uploader.FileUploaderService)
    (params : Uploader.UploadFileParams)
    (s3Client : Uploader.S3Client) (log : list Uploader.PutObjectCommand) :
  Uploader.accepts service params = false →
  Uploader.uploadFile sha256 service params s3Client log
  = (Throws (if bool_decide (Uploader.bucketName params = "")
             then "bucketName cannot be empty"
             else if bool_decide (Uploader.maxFileSize service
                                  < Uploader.size (Uploader.file params))
                  then "File size exceeds the limit"
                  else "Invalid file type"),
     service, log).
Proof.
  unfold Uploader.accepts, Uploader.uploadFile. intros H.
  destruct (bool_decide (Uploader.bucketName params = "")); [done |].
  cbn [negb andb] in H.
  destruct (bool_decide (Uploader.maxFileSize service
                         < Uploader.size (Uploader.file params))) eqn:Hsize;
    [done |].
  apply bool_decide_eq_false in Hsize.
  rewrite bool_decide_eq_true_2 in H by lia. cbn [andb] in H.
  apply orb_false_elim in H as [Hnone Hin].
  rewrite Hin. apply bool_decide_eq_false in Hnone.
  rewrite bool_decide_eq_true_2; [done |].
  destruct (Uploader.allowedFileTypes service); [done | cbn; lia].
Qed.


(** X16.  What [uploadFile] refuses.  An empty bucket name, a file larger
    than the limit and, when a list of allowed types is set, a type outside
    it make the call throw, in this order of precedence; the file is not
    hashed into the cache and no command is sent. *)
Theorem uploadFile_refusals (sha256 : string → string)
    (service : Uploader.FileUploaderService)
    (params : Uploader.UploadFileParams)
    (s3Client : Uploader.S3Client) (log : list Uploader.PutObjectCommand) :
  Uploader.bucketName params = ""
  ∨ Uploader.maxFileSize service < Uploader.size (Uploader.file params)
  ∨ (Uploader.allowedFileTypes service ≠ []
     ∧ Uploader.type (Uploader.file params)
       ∉ Uploader.allowedFileTypes service) →
  Uploader.uploadFile sha256 service params s3Client log
  = (Throws (if bool_decide (Uploader.bucketName params = "")
             then "bucketName cannot be empty"
             else if bool_decide (Uploader.maxFileSize service
                                  < Uploader.size (Uploader.file params))
                  then "File size exceeds the limit"
                  else "Invalid file type"),
     service, log).
Proof.
  intros H. apply refused_before_hashing. unfold Uploader.accepts.
  destruct H as [Hbucket | [Hsize | [Hset Htype]]].
  - by rewrite bool_decide_eq_true_2.
  - rewrite (bool_decide_eq_false_2 (_ ≤ _)) by lia. by rewrite andb_false_r.
  - rewrite (bool_decide_eq_false_2 (_ = [])) by done.
    rewrite (bool_decide_eq_false_2 (_ ∈ _)) by done.
    by rewrite andb_false_r.
Qed.

Lemma uploadFile_refusals_witness :
  let service :=
    Uploader.mkUploader "https://cdn.example" 1024 ["image/png"] ∅ in
  Uploader.uploadFile UploaderSamples.sampleHash service
    (Uploader.mkParams (Uploader.mkFile "a.txt" "text/plain" 10 "0123456789")
       "media" None None None)
    UploaderSamples.sampleStorage []
  = (Throws "Invalid file type", service, []).
Proof.
  intros service.
  apply (uploadFile_refusals UploaderSamples.sampleHash service
           (Uploader.mkParams
              (Uploader.mkFile "a.txt" "text/plain" 10 "0123456789")
              "media" None None None)
           UploaderSamples.sampleStorage []).
  right. right. split; [discriminate |].
  apply (bool_decide_unpack _). vm_compute. reflexivity.
Defined.

(** X17.  The cache is keyed by content alone.  Once a call has returned a
    URL, every later accepted call for a file of the same bytes returns
    that URL and sends nothing, whatever its bucket, key parts, file name
    and type, and whatever the storage would answer. *)
Theorem uploadFile_same_content_is_not_sent_again (sha256 : string → string)
    (service service' : Uploader.FileUploaderService)
    (params : Uploader.UploadFileParams)
    (s3Client : Uploader.S3Client) (log log' : list Uploader.PutObjectCommand)
    (url : string) :
  Uploader.uploadFile sha256 service params s3Client log
  = (Returns url, service', log') →
  ∀ (again : Uploader.UploadFileParams) (s3Client' : Uploader.S3Client)
    (log'' : list Uploader.PutObjectCommand),
    Uploader.bytes (Uploader.file again)
    = Uploader.bytes (Uploader.file params) →
    Uploader.accepts service' again = true →
    Uploader.uploadFile sha256 service' again s3Client' log''
    = (Returns url, service', log'').
Proof.
  intros Hfirst again s3Client' log'' Hbytes Haccepts.
  rewrite accepts_passes by done.
  unfold Uploader.calculateFileHash. rewrite Hbytes.
  assert (Hcached : Uploader.fileCache service'
                      !! sha256 (Uploader.bytes (Uploader.file params))
                    = Some url); [| by rewrite Hcached].
  clear again s3Client' log'' Hbytes Haccepts.
  destruct (Uploader.accepts service params) eqn:Haccepted.
  - rewrite accepts_passes in Hfirst by done.
    unfold Uploader.calculateFileHash in Hfirst.
    destruct (Uploader.fileCache service !! _) as [cached |] eqn:Hlookup.
    + by injection Hfirst as -> -> _.
    + destruct (Uploader.uploadToStorage _ _ _ _ _ _ _) as [[sent | error] ?].
      * injection Hfirst as -> <- _. cbn. by rewrite lookup_insert_eq.
      * done.
  - by rewrite refused_before_hashing in Hfirst.
Qed.

Lemma uploadFile_same_content_is_not_sent_again_witness :
  let service := Uploader.mkUploader "https://cdn.example" 1024 [] ∅ in
  let first :=
    Uploader.mkParams (Uploader.mkFile "a.txt" "text/plain" 2 "hi")
      "media" None None None in
  let again :=
    Uploader.mkParams (Uploader.mkFile "b.md" "" 2 "hi")
      "backup" (Some "docs") None None in
  let service' :=
    (Uploader.uploadFile UploaderSamples.sampleHash service first
       UploaderSamples.sampleStorage []).1.2 in
  Uploader.uploadFile UploaderSamples.sampleHash service' again
    UploaderSamples.failingStorage []
  = (Returns "https://cdn.example/a.txt", service', []).
Proof.
  intros service first again service'.
  exact (uploadFile_same_content_is_not_sent_again UploaderSamples.sampleHash
           service service' first UploaderSamples.sampleStorage [] _
           "https://cdn.example/a.txt" eq_refl
           again UploaderSamples.failingStorage [] eq_refl eq_refl).
Defined.

(** X18.  What a call of [uploadFile] can do.  It sends no command or
    exactly one, which is public-read, goes to the bucket of the call under
    the key of lines 878-883 and carries the bytes of the file with a
    content type that is never empty.  A call that throws leaves the
    service as it was, so a failed upload is not cached; a call that
    returns changes at most the cache, and only at the hash of the file,
    where the returned URL is found afterwards. *)
Theorem uploadFile_effects (sha256 : string → string)
    (service : Uploader.FileUploaderService)
    (params : Uploader.UploadFileParams)
    (s3Client : Uploader.S3Client) (log : list Uploader.PutObjectCommand) :
  let outcome := Uploader.uploadFile sha256 service params s3Client log in
  let fileHash := Uploader.calculateFileHash sha256 (Uploader.file params) in
  (outcome.2 = log
   ∨ ∃ contentType,
       contentType ≠ ""
       ∧ outcome.2
         = log ++ [Uploader.mkPut (Uploader.bucketName params)
                     (Uploader.finalKey params)
                     (Uploader.bytes (Uploader.file params))
                     "public-read" contentType])
  ∧ match outcome.1.1 with
    | Throws _ => outcome.1.2 = service
    | Returns url =>
        Uploader.baseRemoteUrl outcome.1.2 = Uploader.baseRemoteUrl service
        ∧ Uploader.maxFileSize outcome.1.2 = Uploader.maxFileSize service
        ∧ Uploader.allowedFileTypes outcome.1.2
          = Uploader.allowedFileTypes service
        ∧ Uploader.fileCache outcome.1.2 !! fileHash = Some url
        ∧ ∀ other, other ≠ fileHash →
            Uploader.fileCache outcome.1.2 !! other
            = Uploader.fileCache service !! other
    end.
Proof.
  intros outcome fileHash. subst outcome.
  destruct (Uploader.accepts service params) eqn:Haccepted.
  - rewrite accepts_passes by done. fold fileHash.
    destruct (Uploader.fileCache service !! fileHash) as [cached |] eqn:Hlookup.
    + cbn. split; [by left |]. done.
    + pose proof (uploadToStorage_log service (Uploader.bucketName params)
                    (Uploader.finalKey params)
                    (Uploader.bytes (Uploader.file params))
                    (Uploader.orElse (Uploader.type (Uploader.file params))
                       "application/octet-stream")
                    s3Client log) as [Hlog _].
      destruct (Uploader.uploadToStorage _ _ _ _ _ _ _) as [[url | error] log'];
        cbn in Hlog |- *; subst log'.
      * split.
        -- right. eexists. split; [| done].
           by destruct (Uploader.type (Uploader.file params)).
        -- repeat split; try done.
           ++ by rewrite lookup_insert_eq.
           ++ intros other Hother. by rewrite lookup_insert_ne.
      * split; [| done].
        right. eexists. split; [| done].
        by destruct (Uploader.type (Uploader.file params)).
  - rewrite refused_before_hashing by done. cbn. split; [by left | done].
Qed.
